(** * Genetic-algorithm graph colouring: a shallow embedding of [main.go]

    The Go program is embedded function by function.  Go [int] values are
    integers of [Z] (every count below is bounded by the total length of the
    slices it ranges over, so the 64-bit wrap-around is never reached), slices
    are lists read with stdpp's lookup, the [map[int]struct{}] of
    [SelectParents] is a [gset Z].  A run-time panic and an exhausted loop
    budget are explicit outcomes. *)

From stdpp Require Import base list gmap strings sorting pretty.
From Stdlib Require Import ZArith Lia Ascii.

Local Open Scope Z_scope.

(** ** Outcomes *)

Inductive result (A : Type) : Type :=
| Ok (a : A)      (* normal return *)
| Panic           (* Go run-time panic: index out of range, bad argument *)
| OutOfFuel.      (* the loop budget of the model ran out *)
Arguments Ok {A} a.
Arguments Panic {A}.
Arguments OutOfFuel {A}.

Global Instance result_ret : MRet result := λ A a, Ok a.
Global Instance result_bind : MBind result := λ A B f m,
  match m with
  | Ok a => f a
  | Panic => Panic
  | OutOfFuel => OutOfFuel
  end.

(** ** The process-wide state: random source and log

    [tape k] is the raw outcome of the [k]-th call to [math/rand]; [cursor]
    counts the calls made so far.  [logged] collects the [(iteration,
    bestScore)] pairs that [Solve] prints, oldest first. *)

Record World : Type := mkWorld {
  tape : nat → Z;
  cursor : nat;
  logged : list (Z * Z)
}.

Definition advance (k : nat) (w : World) : World :=
  mkWorld (tape w) (cursor w + k)%nat (logged w).

Definition draw (w : World) (k : nat) : Z := tape w (cursor w + k)%nat.

Definition M (A : Type) : Type := World → result (A * World).

Global Instance M_ret : MRet M := λ A a w, Ok (a, w).
Global Instance M_bind : MBind M := λ A B f m w,
  match m w with
  | Ok (a, w') => f a w'
  | Panic => Panic
  | OutOfFuel => OutOfFuel
  end.

Definition lift {A} (r : result A) : M A := λ w,
  match r with
  | Ok a => Ok (a, w)
  | Panic => Panic
  | OutOfFuel => OutOfFuel
  end.

(** [rand.Intn(n)]: panics when [n <= 0], otherwise a value of [[0, n)]. *)
Definition Intn (n : Z) : M Z := λ w,
  if n <=? 0 then Panic else Ok (draw w 0 `mod` n, advance 1 w).

(** [log.Printf("Iteration %d: Score %d\n", iteration, bestScore)]. *)
Definition Printf (iteration bestScore : Z) : M unit := λ w,
  Ok ((), mkWorld (tape w) (cursor w) (logged w ++ [(iteration, bestScore)])).

(** ** Slices *)

Definition lookupZ {A} (l : list A) (i : Z) : option A :=
  if i <? 0 then None else l !! Z.to_nat i.

(** [l[i]], with Go's bounds check. *)
Definition index {A} (l : list A) (i : Z) : result A :=
  match lookupZ l i with
  | Some x => Ok x
  | None => Panic
  end.

Definition len {A} (l : list A) : Z := Z.of_nat (length l).

(** ** Graph model *)

Record Graph : Type := mkGraph {
  AdjecencyList : list (list Z);
  Colors : list Z
}.

Definition NodeCount (g : Graph) : Z := len (AdjecencyList g).

Definition Chromosome : Type := list Z.
Definition Population : Type := list Chromosome.

(** ** Fitness evaluator *)

(** The inner loop [for _, j := range solver.Graph.AdjecencyList[i]]. *)
Fixpoint scan_adjacency (chromosome : Chromosome) (i : Z) (adj : list Z)
    (score : Z) : result Z :=
  match adj with
  | [] => Ok score
  | j :: rest =>
      ci ← index chromosome i;
      cj ← index chromosome j;
      scan_adjacency chromosome i rest (if ci =? cj then score + 1 else score)
  end.

(** The outer loop over the nodes [i], [i+1], ... whose adjacency rows are
    [rows]. *)
Fixpoint scan_nodes (chromosome : Chromosome) (i : Z) (rows : list (list Z))
    (score : Z) : result Z :=
  match rows with
  | [] => Ok score
  | adj :: rest =>
      score' ← scan_adjacency chromosome i adj score;
      scan_nodes chromosome (i + 1) rest score'
  end.

Definition CalculateFitness (g : Graph) (chromosome : Chromosome) : result Z :=
  score ← scan_nodes chromosome 0 (AdjecencyList g) 0;
  Ok (score ÷ 2).

(** *** What the fitness is said to count *)

(** The stored adjacency pairs [(i, j)], [j] in the list of [i], in scan
    order, for the rows of the nodes [i], [i+1], ... *)
Fixpoint pairs_from (i : Z) (rows : list (list Z)) : list (Z * Z) :=
  match rows with
  | [] => []
  | adj :: rest => ((λ j, (i, j)) <$> adj) ++ pairs_from (i + 1) rest
  end.

Definition adjacency_pairs (g : Graph) : list (Z * Z) :=
  pairs_from 0 (AdjecencyList g).

(** Both ends of the pair carry a colour and the colours are equal. *)
Definition same_color (chromosome : Chromosome) (p : Z * Z) : Prop :=
  is_Some (lookupZ chromosome p.1) ∧ lookupZ chromosome p.1 = lookupZ chromosome p.2.

Global Instance same_color_dec chromosome p : Decision (same_color chromosome p).
Proof. unfold same_color. apply _. Defined.

Definition conflicts (g : Graph) (chromosome : Chromosome) : nat :=
  length (filter (same_color chromosome) (adjacency_pairs g)).

(** Data-model invariant of a graph: adjacency entries are node indices. *)
Definition graph_wf (g : Graph) : Prop :=
  Forall (Forall (λ j, 0 ≤ j < NodeCount g)) (AdjecencyList g).

Definition edgeless (g : Graph) : Prop :=
  Forall (λ adj, adj = []) (AdjecencyList g).

Definition proper_coloring (g : Graph) (chromosome : Chromosome) : Prop :=
  Forall (λ p, ¬ same_color chromosome p) (adjacency_pairs g).

(** Every edge is recorded at both of its ends. *)
Definition stored_both_ways (g : Graph) : Prop :=
  ∀ i j, (i, j) ∈ adjacency_pairs g → (j, i) ∈ adjacency_pairs g.

(** No node lists itself as a neighbour. *)
Definition loop_free (g : Graph) : Prop :=
  ∀ i, (i, i) ∉ adjacency_pairs g.

(** [l[i] = x], with Go's bounds check. *)
Definition store {A} (l : list A) (i : Z) (x : A) : result (list A) :=
  if (0 <=? i) && (i <? len l) then Ok (<[Z.to_nat i := x]> l) else Panic.

(** [make([]T, n)] filled with the zero value [z]: panics on a negative
    length. *)
Definition make {A} (z : A) (n : Z) : result (list A) :=
  if n <? 0 then Panic else Ok (replicate (Z.to_nat n) z).

(** Go's integer division: panics on a zero divisor, truncates otherwise. *)
Definition int_div (a b : Z) : result Z :=
  if b =? 0 then Panic else Ok (a ÷ b).

(** ** Solver *)

Record GraphColoringSolver : Type := mkSolver {
  SolverGraph : Graph;
  NumColors : Z;
  population : Population
}.

Definition NewGraphColoringSolver (graph : Graph) (numColors : Z)
    : GraphColoringSolver :=
  mkSolver graph numColors [].

Record GraphColoringSolution : Type := mkSolution {
  Coloring : Chromosome;
  Score : Z
}.

Record scoredChromosome : Type := mkScored {
  chromosome : Chromosome;
  score : Z
}.

(** Library behaviour the program relies on and whose code is outside the
    repository.  [Float32_lt_recip z n] is the outcome of
    [rand.Float32() < 1.0 / float32(n)] when the generator's raw draw is [z]
    (floating point is left abstract).  [sort_Slice] is [sort.Slice] with the
    comparison [scoredPopulation[i].score < scoredPopulation[j].score]: the
    result is ordered and is a rearrangement of the input, ties in any
    order. *)
Class GoLib : Type := {
  Float32_lt_recip : Z → Z → bool;
  sort_Slice : list scoredChromosome → list scoredChromosome;
  sort_Slice_perm : ∀ l, sort_Slice l ≡ₚ l;
  sort_Slice_sorted : ∀ l, Sorted (λ a b, score a ≤ score b) (sort_Slice l)
}.

(** *** Population initializer *)

(** [for j := 0; j < nodeCount; j++ { chr[j] = rand.Intn(solver.NumColors) }],
    [count] iterations left. *)
Fixpoint fill_genes (count : nat) (numColors : Z) (j : Z) (chr : Chromosome)
    : M Chromosome :=
  match count with
  | O => mret chr
  | S count' =>
      v ← Intn numColors;
      chr' ← lift (store chr j v);
      fill_genes count' numColors (j + 1) chr'
  end.

Fixpoint fill_population (count : nat) (solver : GraphColoringSolver)
    (i : Z) (pop : Population) : M Population :=
  match count with
  | O => mret pop
  | S count' =>
      let nodeCount := NodeCount (SolverGraph solver) in
      chr0 ← lift (make 0 nodeCount);
      chr ← fill_genes (Z.to_nat nodeCount) (NumColors solver) 0 chr0;
      pop' ← lift (store pop i chr);
      fill_population count' solver (i + 1) pop'
  end.

Definition RandomPopulation (solver : GraphColoringSolver) (size : Z)
    : M Population :=
  pop ← lift (make [] size);
  fill_population (Z.to_nat size) solver 0 pop.

(** *** Parent selector *)

(** The retry loop [for j := 0; j < 10; j++] of one parent slot, [tries]
    iterations left; [parentIndex] is the variable declared before it. *)
Fixpoint pick_parent (tries : nat) (popSize : Z) (usedParents : gset Z)
    (parentIndex : Z) : M (Z * gset Z) :=
  match tries with
  | O => mret (parentIndex, usedParents)
  | S tries' =>
      idx ← Intn popSize;
      if decide (idx ∈ usedParents)
      then pick_parent tries' popSize usedParents idx
      else mret (idx, {[idx]} ∪ usedParents)
  end.

Fixpoint select_slots (slots : nat) (population : Population)
    (usedParents : gset Z) (parents : list Chromosome) : M (list Chromosome) :=
  match slots with
  | O => mret parents
  | S slots' =>
      '(parentIndex, usedParents') ← pick_parent 10 (len population) usedParents 0;
      parent ← lift (index population parentIndex);
      select_slots slots' population usedParents' (parents ++ [parent])
  end.

Definition parentsCount : nat := 2.

Definition SelectParents (population : Population) : M (list Chromosome) :=
  select_slots parentsCount population ∅ [].

(** *** Crossover *)

(** [for i := currentIndex; i < nextIndex; i++
       { res = append(res, parents[parentIndex][i]) }]. *)
Fixpoint copy_block (count : nat) (parents : list Chromosome)
    (parentIndex i : Z) (res : Chromosome) : result Chromosome :=
  match count with
  | O => Ok res
  | S count' =>
      parent ← index parents parentIndex;
      x ← index parent i;
      copy_block count' parents parentIndex (i + 1) (res ++ [x])
  end.

(** The loop [for currentIndex := 0; currentIndex < chromosomeLength; {...}].
    It has no bound of its own, so the model takes a budget [fuel] of
    evaluations of the loop condition. *)
Fixpoint crossover_loop (fuel : nat) (parents : list Chromosome)
    (chromosomeLength partLength currentIndex : Z) (res : Chromosome)
    : M Chromosome :=
  match fuel with
  | O => λ _, OutOfFuel
  | S fuel' =>
      if currentIndex <? chromosomeLength then
        let nextIndex := currentIndex + partLength in
        let nextIndex :=
          if chromosomeLength <? nextIndex then chromosomeLength else nextIndex in
        parentIndex ← Intn (len parents);
        res' ← lift (copy_block (Z.to_nat (nextIndex - currentIndex)) parents
                                parentIndex currentIndex res);
        crossover_loop fuel' parents chromosomeLength partLength nextIndex res'
      else mret res
  end.

Definition Crossover (fuel : nat) (parents : list Chromosome) : M Chromosome :=
  first ← lift (index parents 0);
  let chromosomeLength := len first in
  let partsCount := len parents in
  partLength ← lift (int_div chromosomeLength partsCount);
  crossover_loop fuel parents chromosomeLength partLength 0 [].

Section Evolution.
Context `{GoLib}.

(** *** Mutation *)

(** One evaluation of [rand.Float32() < mutationProb], where
    [mutationProb = 1.0 / float32(n)]. *)
Definition Float32_below_recip (n : Z) : M bool := λ w,
  Ok (Float32_lt_recip (draw w 0) n, advance 1 w).

(** [for i := 0; i < len(child); i++ {...}], [count] iterations left;
    [mutationProb] is [1.0 / float32(n)]. *)
Fixpoint mutate_loop (count : nat) (numColors : Z) (n : Z) (i : Z)
    (child : Chromosome) : M Chromosome :=
  match count with
  | O => mret child
  | S count' =>
      hit ← Float32_below_recip n;
      child' ← (if hit : bool
                then v ← Intn numColors; lift (store child i v)
                else mret child);
      mutate_loop count' numColors n (i + 1) child'
  end.

Definition Mutate (solver : GraphColoringSolver) (child : Chromosome)
    : M Chromosome :=
  mutate_loop (length child) (NumColors solver) (len child) 0 child.

(** *** Evolutionary loop *)

(** [for childIndex := 0; childIndex < childrenPopSize; childIndex++ {...}],
    [count] iterations left. *)
Fixpoint make_children (count : nat) (fuel : nat) (solver : GraphColoringSolver)
    (population : Population) (scoredPopulation : list scoredChromosome)
    : M (list scoredChromosome) :=
  match count with
  | O => mret scoredPopulation
  | S count' =>
      parents ← SelectParents population;
      child ← Crossover fuel parents;
      mutatedChild ← Mutate solver child;
      score ← lift (CalculateFitness (SolverGraph solver) mutatedChild);
      make_children count' fuel solver population
        (scoredPopulation ++ [mkScored mutatedChild score])
  end.

(** [for i := 0; i < popSize; i++
       { population[i] = scoredPopulation[i].chromosome }]. *)
Fixpoint replace_population (count : nat) (i : Z)
    (scoredPopulation : list scoredChromosome) (population : Population)
    : result Population :=
  match count with
  | O => Ok population
  | S count' =>
      sc ← index scoredPopulation i;
      population' ← store population i (chromosome sc);
      replace_population count' (i + 1) scoredPopulation population'
  end.

(** The generations [iteration], [iteration+1], ..., [remaining] of them
    left. *)
Fixpoint solve_loop (remaining : nat) (iteration : Z) (fuel : nat)
    (solver : GraphColoringSolver) (popSize : Z) (population : Population)
    : M Population :=
  match remaining with
  | O => mret population
  | S remaining' =>
      let childrenPopSize := 2 * popSize in
      scoredPopulation ←
        make_children (Z.to_nat childrenPopSize) fuel solver population [];
      let scoredPopulation := sort_Slice scoredPopulation in
      population' ←
        lift (replace_population (Z.to_nat popSize) 0 scoredPopulation population);
      best ← lift (index scoredPopulation 0);
      let bestScore := score best in
      _ ← (if Z.rem iteration 100 =? 0
           then Printf iteration bestScore else mret ());
      if bestScore =? 0
      then mret population'
      else solve_loop remaining' (iteration + 1) fuel solver popSize population'
  end.

Definition Solve (fuel : nat) (solver : GraphColoringSolver)
    (numIterations popSize : Z) : M GraphColoringSolution :=
  population ← RandomPopulation solver popSize;
  population ← solve_loop (Z.to_nat numIterations) 0 fuel solver popSize population;
  best ← lift (index population 0);
  score ← lift (CalculateFitness (SolverGraph solver) best);
  mret (mkSolution best score).

End Evolution.

(** ** Graph loading *)

Inductive error : Type :=
| PathError                 (* the file could not be opened, read or written *)
| NumError (token : string) (* [strconv.ParseInt] rejected the token *).

(** [strings.Split(s, sep)] for a one-byte separator. *)
Fixpoint Split (s : string) (sep : ascii) : list string :=
  match s with
  | EmptyString => [EmptyString]
  | String c s' =>
      if decide (c = sep) then EmptyString :: Split s' sep
      else match Split s' sep with
           | [] => [String c EmptyString]
           | part :: parts => String c part :: parts
           end
  end.

Definition digit_value (c : ascii) : option Z :=
  let n := Z.of_N (N_of_ascii c) in
  if (48 <=? n) && (n <=? 57) then Some (n - 48) else None.

Fixpoint parse_digits (s : string) (acc : Z) : option Z :=
  match s with
  | EmptyString => Some acc
  | String c s' =>
      match digit_value c with
      | Some d => parse_digits s' (10 * acc + d)
      | None => None
      end
  end.

(** [strconv.ParseInt(s, 10, 32)]: an optional sign, then one or more decimal
    digits, the value within the 32-bit signed range. *)
Definition ParseInt (s : string) : Z + error :=
  let '(neg, body) :=
    match s with
    | String "+"%char rest => (false, rest)
    | String "-"%char rest => (true, rest)
    | _ => (false, s)
    end in
  match body with
  | EmptyString => inr (NumError s)
  | _ =>
      match parse_digits body 0 with
      | None => inr (NumError s)
      | Some un =>
          if neg then (if 2 ^ 31 <? un then inr (NumError s) else inl (- un))
          else (if 2 ^ 31 <=? un then inr (NumError s) else inl un)
      end
  end.

(** The loop over the lines of the file; the outcome is the graph or the error
    that [LoadGraph] returns, or a panic. *)
Fixpoint load_lines (lines : list string) (g : Graph) : result (Graph + error) :=
  match lines with
  | [] => Ok (inl g)
  | line :: rest =>
      match line with
      | EmptyString => load_lines rest g
      | String "c"%char _ => load_lines rest g
      | String "p"%char _ =>
          let tokens := Split line " "%char in
          tok ← index tokens 2;
          match ParseInt tok with
          | inr err => Ok (inr err)
          | inl nodeCount =>
              adj ← make [] nodeCount;
              colors ← make 0 nodeCount;
              load_lines rest (mkGraph adj colors)
          end
      | String "e"%char _ =>
          let tokens := Split line " "%char in
          tok1 ← index tokens 1;
          match ParseInt tok1 with
          | inr err => Ok (inr err)
          | inl first =>
              tok2 ← index tokens 2;
              match ParseInt tok2 with
              | inr err => Ok (inr err)
              | inl second =>
                  row ← index (AdjecencyList g) (first - 1);
                  adj ← store (AdjecencyList g) (first - 1) (row ++ [second - 1]);
                  load_lines rest (mkGraph adj (Colors g))
              end
          end
      | _ => load_lines rest g
      end
  end.

Definition newline : ascii := "010"%char.

(** [LoadGraph]; [file] is what [os.ReadFile(filename)] returns. *)
Definition LoadGraph (file : string + error) : result (Graph + error) :=
  match file with
  | inr err => Ok (inr err)
  | inl bytes => load_lines (Split bytes newline) (mkGraph [] [])
  end.

(** ** Visualization output *)

(** What the operating system answers: whether [os.OpenFile] fails, and
    whether the [k]-th [WriteString] on the file fails. *)
Record FileSystem : Type := mkFS {
  open_error : option error;
  write_error : nat → option error
}.

(** An open file: the number of writes attempted and the strings written. *)
Record File : Type := mkFile {
  attempts : nat;
  content : list string
}.

Definition WriteString (fs : FileSystem) (file : File) (s : string)
    : option error * File :=
  match write_error fs (attempts file) with
  | Some err => (Some err, mkFile (S (attempts file)) (content file))
  | None => (None, mkFile (S (attempts file)) (content file ++ [s]))
  end.

Definition tab : string := String "009"%char EmptyString.
Definition nl : string := String newline EmptyString.

(** [for _, j := range g.AdjecencyList[i]]: the first failed write ends the
    function with its error. *)
Fixpoint write_edges (fs : FileSystem) (i : Z) (adj : list Z) (file : File)
    : option error * File :=
  match adj with
  | [] => (None, file)
  | j :: rest =>
      let '(err, file) :=
        WriteString fs file (tab +:+ pretty i +:+ " -- " +:+ pretty j +:+ nl) in
      match err with
      | Some _ => (err, file)
      | None => write_edges fs i rest file
      end
  end.

Fixpoint write_rows (fs : FileSystem) (i : Z) (rows : list (list Z))
    (file : File) : option error * File :=
  match rows with
  | [] => (None, file)
  | adj :: rest =>
      let '(err, file) := write_edges fs i adj file in
      match err with
      | Some _ => (err, file)
      | None => write_rows fs (i + 1) rest file
      end
  end.

(** The second loop: the error of each write is overwritten by the next. *)
Fixpoint write_styles (fs : FileSystem) (count : nat) (i : Z) (colors : list Z)
    (file : File) : result File :=
  match count with
  | O => Ok file
  | S count' =>
      color ← index colors i;
      let '(_, file) :=
        WriteString fs file
          (tab +:+ pretty i +:+ " [style=filled, color=" +:+ pretty (color + 1)
               +:+ "]" +:+ nl) in
      write_styles fs count' (i + 1) colors file
  end.

(** [SaveGraphViz]: the returned error ([None] is [nil]) and the strings that
    reached the file. *)
Definition SaveGraphViz (fs : FileSystem) (g : Graph)
    : result (option error * list string) :=
  match open_error fs with
  | Some _ => Ok (None, [])
  | None =>
      let file := mkFile 0 [] in
      let '(err, file) :=
        WriteString fs file
          ("graph {" +:+ nl +:+ tab +:+ "node [colorscheme=accent8]" +:+ nl) in
      match err with
      | Some _ => Ok (err, content file)
      | None =>
          let nodeCount := NodeCount g in
          let '(err, file) := write_rows fs 0 (AdjecencyList g) file in
          match err with
          | Some _ => Ok (err, content file)
          | None =>
              file ← write_styles fs (Z.to_nat nodeCount) 0 (Colors g) file;
              let '(err, file) := WriteString fs file ("}" +:+ nl) in
              Ok (err, content file)
          end
      end
  end.

(** ** Random graphs *)

(** One evaluation of [rand.Float32() < prob]; [below z] is its outcome
    when the raw draw of the generator is [z] (the probability and the
    floating-point comparison are left abstract). *)
Definition Float32_lt (below : Z → bool) : M bool := λ w,
  Ok (below (draw w 0), advance 1 w).

(** [for j := i + 1; j < nodeCount; j++ {...}], [count] iterations left. *)
Fixpoint random_edges (count : nat) (below : Z → bool) (i j : Z)
    (adj : list (list Z)) : M (list (list Z)) :=
  match count with
  | O => mret adj
  | S count' =>
      hit ← Float32_lt below;
      adj' ← (if hit : bool
              then row ← lift (index adj i); lift (store adj i (row ++ [j]))
              else mret adj);
      random_edges count' below i (j + 1) adj'
  end.

(** [for i := 0; i < nodeCount; i++ {...}], [count] iterations left. *)
Fixpoint random_rows (count : nat) (below : Z → bool) (nodeCount i : Z)
    (adj : list (list Z)) : M (list (list Z)) :=
  match count with
  | O => mret adj
  | S count' =>
      adj' ← random_edges (Z.to_nat (nodeCount - (i + 1))) below i (i + 1) adj;
      random_rows count' below nodeCount (i + 1) adj'
  end.

Definition NewRandomGraph (below : Z → bool) (nodeCount : Z) : M Graph :=
  adj ← lift (make [] nodeCount);
  colors ← lift (make 0 nodeCount);
  adj ← random_rows (Z.to_nat nodeCount) below nodeCount 0 adj;
  mret (mkGraph adj colors).

(** ** Reference points for the statements *)

(** A chromosome of the solver's data model: one gene per node, each a colour
    index. *)
Definition valid_chromosome (solver : GraphColoringSolver) (c : Chromosome)
    : Prop :=
  len c = NodeCount (SolverGraph solver) ∧
  Forall (λ gene, 0 ≤ gene < NumColors solver) c.

(** The [k]-th block of width [B] of a chromosome. *)
Definition block (B k : nat) (c : Chromosome) : list Z :=
  take B (drop (k * B) c).

(** Number of blocks of width [B] that cover [L] genes. *)
Definition block_count (L B : nat) : nat := ((L + B - 1) / B)%nat.

Definition ceil_div (L P : nat) : nat := ((L + P - 1) / P)%nat.

(** The index that [rand.Intn(len(population))] yields at the [k]-th call to
    the generator from [w] on. *)
Definition drawn_index {A} (population : list A) (w : World) (k : nat) : Z :=
  draw w k `mod` len population.

(** The parent that the [k]-th call to the generator from [w] on selects. *)
Definition drawn_parent (parents : list Chromosome) (w : World) (k : nat)
    : Chromosome :=
  default [] (parents !! Z.to_nat (draw w k `mod` len parents)).

(** The offspring assembled from blocks of width [B], the [k]-th one taken
    from the parent of the [k]-th draw. *)
Definition blockwise (B L : nat) (parents : list Chromosome) (w : World)
    : Chromosome :=
  concat ((λ k, block B k (drawn_parent parents w k)) <$> seq 0 (block_count L B)).

(** [out] is cut into blocks of width [B], each equal to the same block of
    some parent. *)
Definition copied_blockwise (B : nat) (parents : list Chromosome)
    (out : Chromosome) : Prop :=
  ∀ k, (k < block_count (length out) B)%nat →
       ∃ parent, parent ∈ parents ∧ block B k out = block B k parent.

(** A library instance to run the model with: merge sort on the scores, and
    the comparison of a 24-bit draw [z / 2^24] with [1 / n] in exact
    arithmetic. *)
Definition score_le : relation scoredChromosome := λ a b, score a ≤ score b.

Global Instance score_le_dec a b : Decision (score_le a b).
Proof. unfold score_le. apply _. Defined.

Global Instance score_le_total : Total score_le.
Proof. intros a b. unfold score_le. lia. Qed.

Definition reference_lib : GoLib := {|
  Float32_lt_recip z n := (z `mod` 2 ^ 24) * n <? 2 ^ 24;
  sort_Slice := merge_sort score_le;
  sort_Slice_perm := merge_sort_Permutation score_le;
  sort_Slice_sorted := Sorted_merge_sort score_le
|}.

(** Both ends of the pair are positions of the chromosome. *)
Definition endpoints_colored (chromosome : Chromosome) (p : Z * Z) : Prop :=
  is_Some (lookupZ chromosome p.1) ∧ is_Some (lookupZ chromosome p.2).

Global Instance endpoints_colored_dec chromosome p :
  Decision (endpoints_colored chromosome p).
Proof. unfold endpoints_colored. apply _. Defined.

(** Every edge is recorded at both of its ends, as often at one as at the
    other. *)
Definition stored_symmetrically (g : Graph) : Prop :=
  adjacency_pairs g ≡ₚ prod_swap <$> adjacency_pairs g.

(** The equal-coloured stored pairs, each edge counted at its lower end. *)
Definition undirected_conflicts (g : Graph) (chromosome : Chromosome) : nat :=
  length (filter (λ p, p.1 < p.2 ∧ same_color chromosome p) (adjacency_pairs g)).

(** The chromosome whose genes are the next [n] draws of [rand.Intn(numColors)]
    from [w] on. *)
Definition drawn_genes (numColors : Z) (n : nat) (w : World) : Chromosome :=
  (λ j, draw w j `mod` numColors) <$> seq 0 n.

(** [size] chromosomes of [n] genes, drawn one gene after the other. *)
Definition drawn_population (numColors : Z) (n size : nat) (w : World)
    : Population :=
  (λ i, drawn_genes numColors n (advance (i * n) w)) <$> seq 0 size.

(** The chromosome [a] scores no worse than [b]. *)
Definition fitter (g : Graph) (a b : Chromosome) : Prop :=
  ∃ va vb, CalculateFitness g a = Ok va ∧ CalculateFitness g b = Ok vb ∧ va ≤ vb.

(** The population is ordered by ascending fitness. *)
Definition best_first (g : Graph) (population : Population) : Prop :=
  StronglySorted (fitter g) population.

(** An offspring record carries a valid chromosome and its fitness. *)
Definition scored_correctly (solver : GraphColoringSolver) (sc : scoredChromosome)
    : Prop :=
  valid_chromosome solver (chromosome sc) ∧
  CalculateFitness (SolverGraph solver) (chromosome sc) = Ok (score sc).

(** The first byte of a line, if any. *)
Definition first_byte (line : string) : option ascii :=
  match line with
  | EmptyString => None
  | String c _ => Some c
  end.

(** The lines that [LoadGraph] acts on: problem lines and edge lines. *)
Definition significant (line : string) : Prop :=
  first_byte line = Some "p"%char ∨ first_byte line = Some "e"%char.

Global Instance significant_dec line : Decision (significant line).
Proof. unfold significant. apply _. Defined.

(** The directed pair that an edge line [e a b] stands for: [(a-1, b-1)]. *)
Definition edge_of_line (line : string) : option (Z * Z) :=
  if decide (first_byte line = Some "e"%char) then
    let tokens := Split line " "%char in
    match tokens !! 1%nat, tokens !! 2%nat with
    | Some tok1, Some tok2 =>
        match ParseInt tok1, ParseInt tok2 with
        | inl first, inl second => Some (first - 1, second - 1)
        | _, _ => None
        end
    | _, _ => None
    end
  else None.

(** The statements of the visualization file. *)
Definition graphviz_header : string :=
  "graph {" +:+ nl +:+ tab +:+ "node [colorscheme=accent8]" +:+ nl.

Definition graphviz_footer : string := "}" +:+ nl.

Definition edge_statement (p : Z * Z) : string :=
  tab +:+ pretty p.1 +:+ " -- " +:+ pretty p.2 +:+ nl.

Definition style_statement (i color : Z) : string :=
  tab +:+ pretty i +:+ " [style=filled, color=" +:+ pretty (color + 1)
      +:+ "]" +:+ nl.


(** Writing statements one after the other until a write fails. *)
Fixpoint write_seq (fs : FileSystem) (file : File) (stmts : list string)
    : option error * File :=
  match stmts with
  | [] => (None, file)
  | s :: rest =>
      let '(err, file) := WriteString fs file s in
      match err with
      | Some _ => (err, file)
      | None => write_seq fs file rest
      end
  end.

(** A row of a random graph: strictly increasing neighbours, all above the
    node [i] itself and below [nodeCount]. *)
Definition upper_row (nodeCount : Z) (i : nat) (row : list Z) : Prop :=
  StronglySorted Z.lt row ∧ Forall (λ j, Z.of_nat i < j < nodeCount) row.

(** ** Concrete inputs *)

(** The triangle 0-1, 1-2, 0-2, each edge stored at its lower end. *)
Definition triangle : Graph := mkGraph [[1; 2]; [2]; []] [0; 0; 0].

(** The path 0-1-2, each edge stored at both ends. *)
Definition path3 : Graph := mkGraph [[1]; [0; 2]; [1]] [0; 0; 0].

(** Two parents of five genes, and a generator whose draws are 0, 1, 0,
    0, ... *)
Definition five_zeros : Chromosome := [0; 0; 0; 0; 0].
Definition five_ones : Chromosome := [1; 1; 1; 1; 1].
Definition world_010 : World :=
  mkWorld (λ k, if (k =? 1)%nat then 1 else 0) 0 [].

(** Two nodes and no edge. *)
Definition two_isolated : Graph := mkGraph [[]; []] [0; 0].

(** A generator whose [k]-th raw draw is [7k + 3]. *)
Definition world_7k3 : World := mkWorld (λ k, Z.of_nat (k * 7 + 3)) 0 [].

(** A file system on which every operation succeeds. *)
Definition working_fs : FileSystem := mkFS None (λ _, None).

(** One node and no edge. *)
Definition one_node : Graph := mkGraph [[]] [0].

(** Two nodes, one edge, and a colour for the first node only. *)
Definition short_colors : Graph := mkGraph [[1]; []] [0].

(** A generator that always draws 0. *)
Definition world_zero : World := mkWorld (λ _, 0) 0 [].

(** * Properties *)

(** ** Slices and arithmetic *)

Lemma lookupZ_Some {A} (l : list A) (i : Z) (x : A) :
  lookupZ l i = Some x ↔ 0 ≤ i ∧ l !! Z.to_nat i = Some x.
Proof.
  unfold lookupZ. destruct (Z.ltb_spec i 0); split; intros; try easy; lia.
Qed.

Lemma lookupZ_in_range {A} (l : list A) (i : Z) :
  0 ≤ i < len l → is_Some (lookupZ l i).
Proof.
  intros [Hlo Hhi]. unfold lookupZ, len in *.
  destruct (Z.ltb_spec i 0); [lia|].
  apply lookup_lt_is_Some. lia.
Qed.

Lemma lookupZ_of_nat {A} (l : list A) (n : nat) :
  lookupZ l (Z.of_nat n) = l !! n.
Proof.
  unfold lookupZ. destruct (Z.ltb_spec (Z.of_nat n) 0); [lia|].
  by rewrite Nat2Z.id.
Qed.

Lemma index_Ok {A} (l : list A) (i : Z) (x : A) :
  index l i = Ok x ↔ lookupZ l i = Some x.
Proof.
  unfold index. destruct (lookupZ l i); split; intros; simplify_eq; done.
Qed.

Lemma index_of_nat {A} (l : list A) (n : nat) (x : A) :
  l !! n = Some x → index l (Z.of_nat n) = Ok x.
Proof. intros Hx. apply index_Ok. by rewrite lookupZ_of_nat. Qed.

Lemma store_in_range {A} (l : list A) (n : nat) (x : A) :
  (n < length l)%nat → store l (Z.of_nat n) x = Ok (<[n := x]> l).
Proof.
  intros Hn. unfold store, len.
  destruct (Z.leb_spec 0 (Z.of_nat n)); [|lia].
  destruct (Z.ltb_spec (Z.of_nat n) (Z.of_nat (length l))); [|lia].
  simpl. by rewrite Nat2Z.id.
Qed.

Lemma take_min_length {A} (B : nat) (l : list A) :
  take (length l `min` B) l = take B l.
Proof.
  destruct (decide (B ≤ length l)%nat).
  - by replace (length l `min` B)%nat with B by lia.
  - rewrite !take_ge; [done|lia|lia].
Qed.

Lemma drop_concat_uniform {A} (B : nat) (ls : list (list A)) (k : nat) :
  Forall (λ b, length b = B) (take k ls) →
  drop (k * B) (concat ls) = concat (drop k ls).
Proof.
  revert ls. induction k as [|k IH]; intros [|b ls] Hlen; simpl; try done.
  - by rewrite drop_nil.
  - simpl in Hlen. apply Forall_cons in Hlen as [Hb Hlen].
    rewrite drop_app_add' by lia. by apply IH.
Qed.

Lemma two_elements_length {A} (l : list A) (x y : A) :
  x ∈ l → y ∈ l → x ≠ y → (2 ≤ length l)%nat.
Proof.
  intros Hx Hy Hne. destruct l as [|a [|b l']]; simpl; [| |lia].
  - by apply elem_of_nil in Hx.
  - apply list_elem_of_singleton in Hx, Hy. congruence.
Qed.

(** ** Fitness evaluator *)

Section Fitness.
Variable chromosome : Chromosome.

Let matches (ps : list (Z * Z)) : Z :=
  Z.of_nat (length (filter (same_color chromosome) ps)).

(** Whenever the inner scan returns, the counter grew by the number of
    equal-coloured pairs of the row. *)
Lemma scan_adjacency_returns i adj s s' :
  scan_adjacency chromosome i adj s = Ok s' →
  s' = s + matches ((λ j, (i, j)) <$> adj).
Proof.
  unfold matches. revert s s'.
  induction adj as [|j rest IH]; intros s s' Hs; simpl in Hs.
  - simplify_eq. simpl. lia.
  - destruct (index chromosome i) as [ci| |] eqn:Hi; simpl in Hs; try done.
    destruct (index chromosome j) as [cj| |] eqn:Hj; simpl in Hs; try done.
    apply index_Ok in Hi, Hj. apply IH in Hs. subst s'.
    rewrite fmap_cons, filter_cons. destruct (Z.eqb_spec ci cj) as [->|Hne].
    + rewrite decide_True; [rewrite length_cons; lia|].
      split; simpl; [by rewrite Hi | by rewrite Hi, Hj].
    + rewrite decide_False; [lia|].
      intros [_ Heq]. simpl in Heq. congruence.
Qed.

(** With every index in range the inner scan returns. *)
Lemma scan_adjacency_total i adj s :
  0 ≤ i < len chromosome →
  Forall (λ j, 0 ≤ j < len chromosome) adj →
  ∃ s', scan_adjacency chromosome i adj s = Ok s'.
Proof.
  intros Hi Hadj. revert s. induction Hadj as [|j rest Hj _ IH]; intros s; simpl.
  - eauto.
  - destruct (lookupZ_in_range chromosome i Hi) as [ci Hci].
    destruct (lookupZ_in_range chromosome j Hj) as [cj Hcj].
    apply index_Ok in Hci, Hcj. rewrite Hci, Hcj. simpl. apply IH.
Qed.

Lemma scan_nodes_returns i rows s s' :
  scan_nodes chromosome i rows s = Ok s' →
  s' = s + matches (pairs_from i rows).
Proof.
  unfold matches. revert i s s'.
  induction rows as [|adj rest IH]; intros i s s' Hs; simpl in Hs.
  - simplify_eq. simpl. lia.
  - destruct (scan_adjacency chromosome i adj s) as [s1| |] eqn:H1;
      simpl in Hs; try done.
    apply scan_adjacency_returns in H1. apply IH in Hs. unfold matches in *. subst.
    cbn [pairs_from]. rewrite filter_app, length_app. lia.
Qed.

Lemma scan_nodes_total i rows s :
  0 ≤ i → i + len rows ≤ len chromosome →
  Forall (Forall (λ j, 0 ≤ j < len chromosome)) rows →
  ∃ s', scan_nodes chromosome i rows s = Ok s'.
Proof.
  intros Hi Hlen Hrows. revert i s Hi Hlen.
  induction Hrows as [|adj rest Hadj _ IH]; intros i s Hi Hlen; simpl.
  - eauto.
  - unfold len in Hlen. simpl length in Hlen.
    destruct (scan_adjacency_total i adj s) as [s1 Hs1]; [unfold len; lia|done|].
    rewrite Hs1. simpl. apply IH; unfold len; lia.
Qed.

Lemma scan_nodes_edgeless i rows s :
  Forall (λ adj, adj = []) rows → scan_nodes chromosome i rows s = Ok s.
Proof.
  intros Hrows. revert i. induction Hrows as [|adj rest -> _ IH]; intros i; simpl.
  - done.
  - apply IH.
Qed.

End Fitness.

Lemma CalculateFitness_returns g chromosome v :
  CalculateFitness g chromosome = Ok v →
  v = Z.of_nat (conflicts g chromosome / 2).
Proof.
  unfold CalculateFitness, conflicts, adjacency_pairs. intros Hv.
  destruct (scan_nodes chromosome 0 (AdjecencyList g) 0) as [s| |] eqn:Hs;
    simpl in Hv; try done.
  apply scan_nodes_returns in Hs. simplify_eq. rewrite Z.add_0_l.
  rewrite Z.quot_div_nonneg by lia. by rewrite Nat2Z.inj_div.
Qed.

Lemma CalculateFitness_total g chromosome :
  len chromosome = NodeCount g → graph_wf g →
  ∃ v, CalculateFitness g chromosome = Ok v.
Proof.
  intros Hlen Hwf. unfold CalculateFitness.
  destruct (scan_nodes_total chromosome 0 (AdjecencyList g) 0) as [s Hs].
  - lia.
  - unfold NodeCount in Hlen. lia.
  - unfold graph_wf in Hwf. by rewrite Hlen.
  - rewrite Hs. simpl. eauto.
Qed.

Lemma CalculateFitness_edgeless g chromosome :
  edgeless g → CalculateFitness g chromosome = Ok 0.
Proof.
  intros Hg. unfold CalculateFitness.
  by rewrite scan_nodes_edgeless.
Qed.



(** C4, as stated, fails: with the edge 0-1 stored once and both nodes of
    colour 0, the single match is halved to a fitness of 0 although the
    colouring is not proper. *)
Lemma zero_fitness_improper :
  CalculateFitness (mkGraph [[1]; []] [0; 0]) [0; 0] = Ok 0 ∧
  ¬ proper_coloring (mkGraph [[1]; []] [0; 0]) [0; 0].
Proof.
  split; [reflexivity|].
  unfold proper_coloring, adjacency_pairs. simpl. intros Hp.
  apply Forall_cons in Hp as [Hp _]. apply Hp. by split; [eexists|].
Qed.

(** C4, amended: when [CalculateFitness] returns 0, at most one stored
    adjacency pair has equal colours at its two ends; the chromosome is a
    proper colouring when, in addition, every edge is stored at both ends and
    no node lists itself. *)
Theorem zero_fitness_at_most_one_match g chromosome :
  CalculateFitness g chromosome = Ok 0 →
  (conflicts g chromosome ≤ 1)%nat ∧
  (stored_both_ways g → loop_free g → proper_coloring g chromosome).
Proof.
  intros Hzero. apply CalculateFitness_returns in Hzero.
  assert (Hle : (conflicts g chromosome ≤ 1)%nat).
  { assert (Hdiv : (conflicts g chromosome / 2 = 0)%nat) by lia.
    apply Nat.div_small_iff in Hdiv; lia. }
  split; [exact Hle|].
  intros Hsym Hloop. unfold proper_coloring. apply Forall_forall.
  intros [i j] Hin [Hsome Heq]. simpl in *.
  assert (Hne : (i, j) ≠ (j, i)).
  { intros [= -> _]. by apply (Hloop j). }
  assert (Hlen : (2 ≤ conflicts g chromosome)%nat); [|lia].
  unfold conflicts. apply (two_elements_length _ (i, j) (j, i)); [| |done].
  - apply list_elem_of_filter. by split.
  - apply list_elem_of_filter. split; [|by apply Hsym].
    split; simpl; [by rewrite <- Heq | done].
Qed.

Lemma zero_fitness_at_most_one_match_witness :
  CalculateFitness path3 [0; 1; 0] = Ok 0 ∧
  (conflicts path3 [0; 1; 0]%Z ≤ 1)%nat ∧
  proper_coloring path3 [0; 1; 0].
Proof.
  assert (Hzero : CalculateFitness path3 [0; 1; 0] = Ok 0) by reflexivity.
  split; [exact Hzero|].
  destruct (zero_fitness_at_most_one_match path3 [0; 1; 0] Hzero) as [Hle Hproper].
  split; [exact Hle|]. apply Hproper.
  - intros i j Hin. unfold adjacency_pairs, path3 in *. simpl in *.
    repeat (apply elem_of_cons in Hin as [Hin|Hin];
            [injection Hin as -> ->; by repeat constructor|]).
    by apply elem_of_nil in Hin.
  - intros i Hin. unfold adjacency_pairs, path3 in *. simpl in *.
    repeat (apply elem_of_cons in Hin as [Hin|Hin]; [by simplify_eq|]).
    by apply elem_of_nil in Hin.
Defined.

(** ** The state monad and the random source *)

Lemma bind_Ok {A B} (m : M A) (f : A → M B) w a w' :
  m w = Ok (a, w') → (m ≫= f) w = f a w'.
Proof. intros Hm. unfold mbind, M_bind. by rewrite Hm. Qed.

Lemma bind_Ok_inv {A B} (m : M A) (f : A → M B) w b w'' :
  (m ≫= f) w = Ok (b, w'') →
  ∃ a w', m w = Ok (a, w') ∧ f a w' = Ok (b, w'').
Proof.
  unfold mbind, M_bind. destruct (m w) as [[a w']| |]; intros; try done. eauto.
Qed.

Lemma bind_OutOfFuel {A B} (m : M A) (f : A → M B) w :
  m w = OutOfFuel → (m ≫= f) w = OutOfFuel.
Proof. intros Hm. unfold mbind, M_bind. by rewrite Hm. Qed.

Lemma bind_Panic {A B} (m : M A) (f : A → M B) w :
  m w = Panic → (m ≫= f) w = Panic.
Proof. intros Hm. unfold mbind, M_bind. by rewrite Hm. Qed.

Lemma lift_Ok {A} (r : result A) a w : r = Ok a → lift r w = Ok (a, w).
Proof. by intros ->. Qed.

Lemma lift_Ok_inv {A} (r : result A) a w w' :
  lift r w = Ok (a, w') → r = Ok a ∧ w' = w.
Proof. destruct r; simpl; intros; simplify_eq; done. Qed.

Lemma advance_0 w : advance 0 w = w.
Proof. destruct w. unfold advance. simpl. by rewrite Nat.add_0_r. Qed.

Lemma advance_advance a b w : advance a (advance b w) = advance (b + a) w.
Proof. unfold advance. simpl. by rewrite Nat.add_assoc. Qed.

Lemma draw_advance a w k : draw (advance a w) k = draw w (a + k).
Proof. unfold draw, advance. simpl. by rewrite Nat.add_assoc. Qed.

Lemma logged_advance a w : logged (advance a w) = logged w.
Proof. done. Qed.

Lemma Intn_pos n w : 0 < n → Intn n w = Ok (draw w 0 `mod` n, advance 1 w).
Proof. intros Hn. unfold Intn. destruct (Z.leb_spec n 0); [lia|done]. Qed.

Lemma Intn_nonpos n w : n ≤ 0 → Intn n w = Panic.
Proof. intros Hn. unfold Intn. destruct (Z.leb_spec n 0); [done|lia]. Qed.

Lemma drawn_index_range {A} (population : list A) w k :
  population ≠ [] → 0 ≤ drawn_index population w k < len population.
Proof.
  intros Hne. unfold drawn_index. apply Z.mod_pos_bound.
  unfold len. destruct population; [done|simpl; lia].
Qed.

Lemma drawn_index_advance {A} (population : list A) a w k :
  drawn_index population (advance a w) k = drawn_index population w (a + k).
Proof. unfold drawn_index. by rewrite draw_advance. Qed.

(** ** Parent selector *)

Lemma pick_parent_S tries popSize usedParents parentIndex :
  pick_parent (S tries) popSize usedParents parentIndex =
  (idx ← Intn popSize;
   if decide (idx ∈ usedParents)
   then pick_parent tries popSize usedParents idx
   else mret (idx, {[idx]} ∪ usedParents)).
Proof. reflexivity. Qed.

(** A slot that must avoid the single index [i0]: the draw that is kept is
    the first one, among at most [S t], that differs from [i0], or the last
    one when there is none. *)
Lemma pick_parent_avoiding (popSize i0 : Z) (t : nat) :
  0 < popSize →
  ∀ p w, ∃ k used',
    pick_parent (S t) popSize {[i0]} p w
      = Ok ((draw w k `mod` popSize, used'), advance (S k) w) ∧
    (k ≤ t)%nat ∧
    (∀ m, (m < k)%nat → draw w m `mod` popSize = i0) ∧
    ((k < t)%nat → draw w k `mod` popSize ≠ i0).
Proof.
  intros Hpos. induction t as [|t IH]; intros p w.
  - exists 0%nat. rewrite pick_parent_S.
    rewrite (bind_Ok _ _ _ _ _ (Intn_pos popSize w Hpos)).
    destruct (decide (draw w 0 `mod` popSize ∈ ({[i0]} : gset Z)));
      eexists; (split; [reflexivity|]); repeat split; intros; lia.
  - rewrite pick_parent_S.
    rewrite (bind_Ok _ _ _ _ _ (Intn_pos popSize w Hpos)).
    destruct (decide (draw w 0 `mod` popSize ∈ ({[i0]} : gset Z))) as [Hin|Hout].
    + destruct (IH (draw w 0 `mod` popSize) (advance 1 w))
        as (k & used' & Hrun & Hk & Hbefore & Hfresh).
      exists (S k), used'. rewrite Hrun, draw_advance, advance_advance.
      split; [done|]. split; [lia|]. split.
      * intros [|m] Hm; [set_solver|].
        specialize (Hbefore m). rewrite draw_advance in Hbefore.
        apply Hbefore. lia.
      * intros Hlt. rewrite draw_advance in Hfresh. apply Hfresh. lia.
    + exists 0%nat. eexists. split; [reflexivity|].
      split; [lia|]. split; [intros; lia|]. intros _. set_solver.
Qed.

(** The complete run of [SelectParents] on a non-empty population, in terms
    of the draws of the generator. *)
Lemma SelectParents_run (population : Population) (w : World) :
  population ≠ [] →
  ∃ K p0 p1,
    SelectParents population w = Ok ([p0; p1], advance (S K) w) ∧
    (1 ≤ K ≤ 10)%nat ∧
    lookupZ population (drawn_index population w 0) = Some p0 ∧
    lookupZ population (drawn_index population w K) = Some p1 ∧
    (∀ m, (1 ≤ m < K)%nat →
          drawn_index population w m = drawn_index population w 0) ∧
    ((K < 10)%nat →
          drawn_index population w K ≠ drawn_index population w 0) ∧
    (∀ c, population = [c] → p0 = c ∧ p1 = c ∧ K = 10%nat).
Proof.
  intros Hne.
  assert (Hpos : 0 < len population).
  { unfold len. destruct population; [done|simpl; lia]. }
  destruct (lookupZ_in_range population _ (drawn_index_range population w 0 Hne))
    as [p0 Hp0].
  destruct (pick_parent_avoiding (len population) (drawn_index population w 0)
              9 Hpos 0 (advance 1 w)) as (k & used' & Hrun & Hk & Hbefore & Hfresh).
  rewrite draw_advance in Hrun, Hfresh. rewrite advance_advance in Hrun.
  destruct (lookupZ_in_range population _
              (drawn_index_range population w (1 + k) Hne)) as [p1 Hp1].
  exists (S k), p0, p1. split; [|split; [lia|split; [done|split; [done|split; [|split]]]]].
  - unfold SelectParents, parentsCount. cbn [select_slots].
    rewrite pick_parent_S.
    erewrite (bind_Ok (_ ≫= _)); cycle 1.
    { rewrite (bind_Ok _ _ _ _ _ (Intn_pos _ w Hpos)).
      rewrite decide_False by set_solver. reflexivity. }
    cbn beta iota.
    erewrite (bind_Ok (lift _)); [|apply lift_Ok, index_Ok, Hp0].
    rewrite (right_id_L (∅ : gset Z) (∪)).
    change (draw w 0 `mod` len population) with (drawn_index population w 0).
    erewrite bind_Ok; [|apply Hrun]. cbn beta iota.
    erewrite (bind_Ok (lift _)); [|apply lift_Ok, index_Ok, Hp1].
    reflexivity.
  - intros [|m] Hm; [lia|]. specialize (Hbefore m).
    rewrite draw_advance in Hbefore. apply Hbefore. lia.
  - intros Hlt. apply Hfresh. lia.
  - intros c ->. clear Hrun.
    assert (Hd : ∀ m, drawn_index [c] w m = 0).
    { intros m. unfold drawn_index, len. simpl. apply Z.mod_1_r. }
    rewrite Hd in Hp0, Hp1. unfold lookupZ in Hp0, Hp1. simpl in Hp0, Hp1.
    injection Hp0 as <-. injection Hp1 as <-.
    split; [done|]. split; [done|].
    destruct (decide (k < 9)%nat) as [Hlt|]; [|lia].
    exfalso. apply Hfresh; [done|].
    change (drawn_index [c] w (1 + k) = drawn_index [c] w 0). by rewrite !Hd.
Qed.

(** C5: on a non-empty population [SelectParents] returns, without panic,
    exactly two chromosomes.  The first is the one at the first drawn index;
    the second is the one at draw number [K], with [1 <= K <= 10], where every
    earlier draw of the second slot repeated the first index and draw [K]
    is either different or the tenth, which is kept even if it repeats.  On
    a population of one chromosome both are that chromosome. *)
Theorem SelectParents_two_parents (population : Population) (w : World) :
  population ≠ [] →
  ∃ K p0 p1,
    SelectParents population w = Ok ([p0; p1], advance (S K) w) ∧
    (1 ≤ K ≤ 10)%nat ∧
    lookupZ population (drawn_index population w 0) = Some p0 ∧
    lookupZ population (drawn_index population w K) = Some p1 ∧
    (∀ m, (1 ≤ m < K)%nat →
          drawn_index population w m = drawn_index population w 0) ∧
    ((K < 10)%nat →
          drawn_index population w K ≠ drawn_index population w 0) ∧
    (∀ c, population = [c] → p0 = c ∧ p1 = c ∧ K = 10%nat).
Proof. apply SelectParents_run. Qed.

Lemma SelectParents_two_parents_witness :
  [[1; 2]; [3; 4]] ≠ ([] : Population) ∧
  ∃ K p0 p1,
    SelectParents [[1; 2]; [3; 4]] (mkWorld (λ _, 0) 0 [])
      = Ok ([p0; p1], advance (S K) (mkWorld (λ _, 0) 0 [])).
Proof.
  assert (Hne : [[1; 2]; [3; 4]] ≠ ([] : Population)) by discriminate.
  split; [exact Hne|].
  destruct (SelectParents_two_parents [[1; 2]; [3; 4]] (mkWorld (λ _, 0) 0 []) Hne)
    as (K & p0 & p1 & Hrun & _).
  exists K, p0, p1. exact Hrun.
Defined.

(** ** Crossover *)

Lemma block_count_le (L B j : nat) :
  (1 ≤ B)%nat → (block_count L B ≤ j)%nat ↔ (L ≤ j * B)%nat.
Proof.
  intros HB. unfold block_count.
  pose proof (Nat.div_mod_eq (L + B - 1) B) as Hdm.
  pose proof (Nat.mod_upper_bound (L + B - 1) B) as Hr.
  split; intros; nia.
Qed.

(** The copy loop appends the genes [i .. i+count) of the chosen parent. *)
Lemma copy_block_take (parents : list Chromosome) (pidx : Z) parent :
  lookupZ parents pidx = Some parent →
  ∀ count i res, (i + count ≤ length parent)%nat →
    copy_block count parents pidx (Z.of_nat i) res
      = Ok (res ++ take count (drop i parent)).
Proof.
  intros Hparent. induction count as [|count IH]; intros i res Hlen.
  - simpl. by rewrite app_nil_r.
  - destruct (lookup_lt_is_Some_2 parent i) as [x Hx]; [lia|].
    cbn [copy_block]. apply index_Ok in Hparent. rewrite Hparent. simpl.
    rewrite (index_of_nat _ _ _ Hx). simpl.
    replace (Z.of_nat i + 1) with (Z.of_nat (S i)) by lia.
    rewrite IH by lia. rewrite (drop_S _ _ _ Hx). simpl.
    by rewrite <- app_assoc.
Qed.

(** Whatever the copy loop returns extends [res] by [count] genes of the
    parents. *)
Lemma copy_block_returns (G : Z → Prop) (parents : list Chromosome) pidx :
  Forall (Forall G) parents →
  ∀ count i res res', copy_block count parents pidx i res = Ok res' →
    Forall G res →
    length res' = (length res + count)%nat ∧ Forall G res'.
Proof.
  intros Hparents. induction count as [|count IH]; intros i res res' Hrun Hres.
  - simpl in Hrun. simplify_eq. split; [lia|done].
  - cbn [copy_block] in Hrun.
    destruct (index parents pidx) as [parent| |] eqn:Hp; simpl in Hrun; try done.
    destruct (index parent i) as [x| |] eqn:Hx; simpl in Hrun; try done.
    apply IH in Hrun as [Hlen HG].
    + rewrite length_app in Hlen. simpl in Hlen. split; [lia|done].
    + apply Forall_app. split; [done|]. apply Forall_singleton.
      apply index_Ok, lookupZ_Some in Hp as [_ Hp], Hx as [_ Hx].
      apply list_elem_of_lookup_2 in Hp, Hx.
      rewrite Forall_forall in Hparents. specialize (Hparents _ Hp).
      rewrite Forall_forall in Hparents. by apply Hparents.
Qed.

Lemma crossover_loop_S fuel parents chromosomeLength partLength currentIndex res :
  crossover_loop (S fuel) parents chromosomeLength partLength currentIndex res =
  if currentIndex <? chromosomeLength then
    let nextIndex := currentIndex + partLength in
    let nextIndex :=
      if chromosomeLength <? nextIndex then chromosomeLength else nextIndex in
    parentIndex ← Intn (len parents);
    res' ← lift (copy_block (Z.to_nat (nextIndex - currentIndex)) parents
                            parentIndex currentIndex res);
    crossover_loop fuel parents chromosomeLength partLength nextIndex res'
  else mret res.
Proof. reflexivity. Qed.

Section CrossoverLoop.
Variables (parents : list Chromosome) (L B : nat).
Hypothesis parents_nonempty : parents ≠ [].
Hypothesis parents_length : Forall (λ p, length p = L) parents.

Lemma drawn_parent_lookup w k :
  lookupZ parents (draw w k `mod` len parents) = Some (drawn_parent parents w k)
  ∧ length (drawn_parent parents w k) = L.
Proof.
  destruct (lookupZ_in_range parents _ (drawn_index_range parents w k parents_nonempty))
    as [p Hp].
  unfold drawn_index in Hp. rewrite Hp.
  apply lookupZ_Some in Hp as [_ Hp]. unfold drawn_parent, Chromosome in *.
  rewrite Hp. simpl. split; [done|].
  apply list_elem_of_lookup_2 in Hp.
  rewrite Forall_forall in parents_length. by apply parents_length.
Qed.

(** With blocks of positive width the loop ends: from the start of block [j]
    it appends the [n] remaining blocks, one draw each. *)
Lemma crossover_loop_blocks (w0 : World) :
  (1 ≤ B)%nat →
  ∀ n j fuel res, block_count L B = (j + n)%nat → (n < fuel)%nat →
    crossover_loop fuel parents (Z.of_nat L) (Z.of_nat B)
        (Z.of_nat (L `min` (j * B))) res (advance j w0)
    = Ok (res ++ concat ((λ k, block B k (drawn_parent parents w0 k)) <$> seq j n),
          advance (j + n) w0).
Proof.
  intros HB. induction n as [|n IH]; intros j fuel res Hcount Hfuel;
    (destruct fuel as [|fuel]; [lia|]); rewrite crossover_loop_S.
  - assert (L ≤ j * B)%nat by (apply block_count_le; [done|lia]).
    destruct (Z.ltb_spec (Z.of_nat (L `min` (j * B))) (Z.of_nat L)); [lia|].
    simpl. by rewrite app_nil_r, Nat.add_0_r.
  - assert (j * B < L)%nat.
    { destruct (decide (L ≤ j * B)%nat) as [Hle|]; [|lia].
      apply (block_count_le L B j HB) in Hle. lia. }
    replace (L `min` (j * B))%nat with (j * B)%nat by lia.
    destruct (Z.ltb_spec (Z.of_nat (j * B)) (Z.of_nat L)); [|lia].
    cbn zeta.
    assert (Hpos : 0 < len parents).
    { unfold len. destruct parents; [done|simpl; lia]. }
    rewrite (bind_Ok _ _ _ _ _ (Intn_pos _ _ Hpos)).
    rewrite draw_advance, Nat.add_0_r, advance_advance.
    destruct (drawn_parent_lookup w0 j) as [Hparent Hlen].
    set (next := if Z.of_nat L <? Z.of_nat (j * B) + Z.of_nat B
                 then Z.of_nat L else Z.of_nat (j * B) + Z.of_nat B).
    assert (Hnext : next = Z.of_nat (L `min` (S j * B))).
    { subst next. destruct (Z.ltb_spec (Z.of_nat L) (Z.of_nat (j * B) + Z.of_nat B)); lia. }
    erewrite (bind_Ok (lift _)); cycle 1.
    { apply lift_Ok. apply (copy_block_take _ _ _ Hparent). lia. }
    rewrite Hnext. replace (j + 1)%nat with (S j) by lia.
    rewrite IH by lia.
    replace (S j + n)%nat with (j + S n)%nat by lia.
    f_equal. f_equal. rewrite <- app_assoc. f_equal.
    rewrite <- cons_seq, fmap_cons, concat_cons. f_equal.
    unfold block. rewrite <- (take_min_length B (drop _ _)).
    f_equal. rewrite length_drop. lia.
Qed.

Lemma block_full_length w k :
  (S k * B ≤ L)%nat → length (block B k (drawn_parent parents w k)) = B.
Proof.
  intros Hk. destruct (drawn_parent_lookup w k) as [_ Hlen].
  unfold block. rewrite length_take, length_drop, Hlen. lia.
Qed.

(** Each block of the assembled offspring is the same block of the parent
    drawn for it. *)
Lemma blockwise_block w k :
  (1 ≤ B)%nat → (k < block_count L B)%nat →
  block B k (blockwise B L parents w) = block B k (drawn_parent parents w k).
Proof.
  intros HB Hk. unfold blockwise.
  set (f := λ k, block B k (drawn_parent parents w k)).
  set (n := block_count L B) in *.
  unfold block at 1. rewrite drop_concat_uniform.
  - rewrite <- fmap_drop, drop_seq. simpl.
    replace (n - k)%nat with (S (n - S k)) by lia.
    rewrite <- cons_seq, fmap_cons, concat_cons.
    destruct (decide (S k < n)%nat) as [Hlt|Hlast].
    + apply take_app_length'. symmetry. apply block_full_length.
      destruct (decide (S k * B ≤ L)%nat) as [|Hgt]; [done|].
      assert (block_count L B ≤ S k)%nat; [|lia].
      apply block_count_le; [done|lia].
    + replace (n - S k)%nat with 0%nat by lia. simpl. rewrite app_nil_r.
      unfold f, block. apply take_idemp.
  - rewrite <- fmap_take, take_seq. apply Forall_fmap, Forall_seq.
    intros j Hj. simpl. apply block_full_length.
    destruct (decide (S j * B ≤ L)%nat) as [|Hgt]; [done|].
    assert (block_count L B ≤ S j)%nat; [|lia].
    apply block_count_le; [done|lia].
Qed.

End CrossoverLoop.

(** Whatever the loop returns has [chromosomeLength] genes, all of them
    genes of the parents or of the initial [res]. *)
Lemma crossover_loop_returns (G : Z → Prop) (parents : list Chromosome) (L B : Z) :
  Forall (Forall G) parents → 0 ≤ B →
  ∀ fuel c res w out w',
    crossover_loop fuel parents L B c res w = Ok (out, w') →
    len res = c → c ≤ L → Forall G res →
    len out = L ∧ Forall G out.
Proof.
  intros Hparents HB. induction fuel as [|fuel IH];
    intros c res w out w' Hrun Hlen Hc Hres; [done|].
  rewrite crossover_loop_S in Hrun.
  destruct (Z.ltb_spec c L) as [Hlt|Hge].
  - cbn zeta in Hrun.
    apply bind_Ok_inv in Hrun as (pidx & w1 & _ & Hrun).
    apply bind_Ok_inv in Hrun as (res' & w2 & Hcopy & Hrun).
    apply lift_Ok_inv in Hcopy as [Hcopy ->].
    apply (copy_block_returns G _ _ Hparents) in Hcopy as [Hlen' Hres']; [|done].
    apply IH in Hrun; [done| |destruct (Z.ltb_spec L (c + B)); lia|done].
    unfold len in *. destruct (Z.ltb_spec L (c + B)); lia.
  - simpl in Hrun. unfold mret, M_ret in Hrun. simplify_eq.
    split; [lia|done].
Qed.

(** Whatever [Crossover] returns has the length of the first parent and only
    genes of the parents. *)
Lemma Crossover_returns (G : Z → Prop) fuel (parents : list Chromosome) w out w' :
  Crossover fuel parents w = Ok (out, w') →
  Forall (Forall G) parents →
  ∃ first, parents !! 0%nat = Some first ∧ length out = length first ∧ Forall G out.
Proof.
  unfold Crossover. intros Hrun Hparents.
  apply bind_Ok_inv in Hrun as (first & w1 & Hfirst & Hrun).
  apply lift_Ok_inv in Hfirst as [Hfirst ->].
  apply index_Ok, lookupZ_Some in Hfirst as [_ Hfirst]. simpl in Hfirst.
  apply bind_Ok_inv in Hrun as (B & w1 & HB & Hrun).
  apply lift_Ok_inv in HB as [HB ->]. unfold int_div in HB.
  destruct (Z.eqb_spec (len parents) 0); [done|]. simplify_eq.
  exists first. split; [done|].
  apply (crossover_loop_returns G) in Hrun as [Hlen HG]; try done.
  - unfold len in Hlen. split; [lia|done].
  - apply Z.quot_pos; unfold len in *; lia.
  - unfold len. lia.
Qed.

Lemma floor_width_pos {A} (parents : list A) (L : nat) :
  parents ≠ [] → (length parents ≤ L)%nat → (1 ≤ L / length parents)%nat.
Proof.
  intros Hne HP. apply Nat.div_le_lower_bound; [|lia].
  destruct parents; [done|simpl; lia].
Qed.

(** The block width that the code computes. *)
Lemma partLength_floor (first : Chromosome) (parents : list Chromosome) :
  parents ≠ [] →
  int_div (len first) (len parents)
    = Ok (Z.of_nat (length first / length parents)).
Proof.
  intros Hne. unfold int_div, len.
  destruct (Z.eqb_spec (Z.of_nat (length parents)) 0) as [H0|_].
  - destruct parents; [done|simpl in H0; lia].
  - rewrite Z.quot_div_nonneg by (destruct parents; [done|simpl; lia]).
    by rewrite Nat2Z.inj_div.
Qed.

(** C2, as stated, fails: for two parents of five genes the code cuts
    blocks of width 2 and draws three times, so with the draws 0, 1, 0 the
    offspring is neither the one assembled from blocks of width
    [ceil(5/2) = 3], nor any other offspring whose width-3 blocks are each
    copied from one parent. *)
Lemma Crossover_not_ceil_blocks :
  Crossover 6 [five_zeros; five_ones] world_010
    = Ok ([0; 0; 1; 1; 0], advance 3 world_010) ∧
  Crossover 6 [five_zeros; five_ones] world_010
    ≠ Ok (blockwise (ceil_div 5 2) 5 [five_zeros; five_ones] world_010,
          advance (block_count 5 (ceil_div 5 2)) world_010) ∧
  ¬ copied_blockwise (ceil_div 5 2) [five_zeros; five_ones] [0; 0; 1; 1; 0].
Proof.
  split; [reflexivity|]. split.
  - vm_compute. discriminate.
  - intros Hblocks. destruct (Hblocks 0%nat) as (parent & Hin & Hblock).
    + vm_compute. lia.
    + vm_compute in Hblock.
      apply elem_of_cons in Hin as [->|Hin]; [discriminate|].
      apply list_elem_of_singleton in Hin as ->. discriminate.
Qed.

(** The complete run of [Crossover] when the block width is positive or the
    parents are empty. *)
Lemma Crossover_blockwise_run (parents : list Chromosome) (L fuel : nat) (w : World) :
  parents ≠ [] →
  Forall (λ p, length p = L) parents →
  L = 0%nat ∨ (length parents ≤ L)%nat →
  (block_count L (L / length parents) < fuel)%nat →
  Crossover fuel parents w
    = Ok (blockwise (L / length parents) L parents w,
          advance (block_count L (L / length parents)) w) ∧
  length (blockwise (L / length parents) L parents w) = L ∧
  copied_blockwise (L / length parents) parents
    (blockwise (L / length parents) L parents w).
Proof.
  intros Hne Hlen Hcase Hfuel.
  set (B := (L / length parents)%nat) in *.
  assert (HBpos : (length parents ≤ L)%nat → (1 ≤ B)%nat).
  { intros HP. by apply floor_width_pos. }
  assert (∃ first, parents !! 0%nat = Some first ∧ length first = L)
    as (first & Hfirst & HfirstL).
  { destruct parents as [|first rest]; [done|]. exists first. split; [done|].
    by apply Forall_cons in Hlen as [? _]. }
  assert (Hrun : Crossover fuel parents w
                 = Ok (blockwise B L parents w, advance (block_count L B) w)).
  { unfold Crossover.
    erewrite (bind_Ok (lift _)); cycle 1.
    { apply lift_Ok, index_Ok. exact Hfirst. }
    erewrite (bind_Ok (lift _)); cycle 1.
    { apply lift_Ok. by apply partLength_floor. }
    rewrite HfirstL. fold B. unfold len. rewrite HfirstL.
    destruct Hcase as [HL|HP].
    - subst L. destruct fuel as [|fuel]; [lia|].
      replace B with 0%nat by (subst B; by rewrite Nat.Div0.div_0_l).
      rewrite crossover_loop_S. simpl. unfold blockwise, block_count. simpl.
      by rewrite advance_0.
    - pose proof (crossover_loop_blocks parents L B Hne Hlen w (HBpos HP)
                    (block_count L B) 0 fuel [] eq_refl Hfuel) as Hloop.
      rewrite advance_0 in Hloop.
      replace (L `min` (0 * B))%nat with 0%nat in Hloop by lia.
      exact Hloop. }
  split; [exact Hrun|].
  assert (Hlength : length (blockwise B L parents w) = L).
  { apply (Crossover_returns (λ _, True)) in Hrun as (first' & Hfirst' & Hout & _).
    - rewrite Hout. apply list_elem_of_lookup_2 in Hfirst'.
      rewrite Forall_forall in Hlen. by apply Hlen.
    - apply Forall_forall. intros p _. by apply Forall_forall. }
  split; [exact Hlength|].
  intros k Hk. rewrite Hlength in Hk.
  destruct Hcase as [HL|HP].
  - subst L. exfalso. replace B with 0%nat in Hk by (subst B; by rewrite Nat.Div0.div_0_l).
    unfold block_count in Hk. simpl in Hk. lia.
  - exists (drawn_parent parents w k). split.
    + destruct (drawn_parent_lookup parents L Hne Hlen w k) as [Hp _].
      apply lookupZ_Some in Hp as [_ Hp]. by apply list_elem_of_lookup_2 in Hp.
    + apply blockwise_block; auto.
Qed.

(** C2, amended: for [P >= 1] parents of equal length [L] with [L = 0] or
    [P <= L], [Crossover] cuts the index range into contiguous blocks of
    width [floor(L/P)] in order (only the last may be shorter), makes one
    draw [rand.Intn(P)] per block, and copies the block of the drawn parent
    verbatim into the offspring. *)
Theorem Crossover_floor_blocks (parents : list Chromosome) (L fuel : nat) (w : World) :
  parents ≠ [] →
  Forall (λ p, length p = L) parents →
  L = 0%nat ∨ (length parents ≤ L)%nat →
  (block_count L (L / length parents) < fuel)%nat →
  Crossover fuel parents w
    = Ok (blockwise (L / length parents) L parents w,
          advance (block_count L (L / length parents)) w) ∧
  length (blockwise (L / length parents) L parents w) = L ∧
  copied_blockwise (L / length parents) parents
    (blockwise (L / length parents) L parents w).
Proof. apply Crossover_blockwise_run. Qed.

Lemma Crossover_floor_blocks_witness :
  [five_zeros; five_ones] ≠ [] ∧
  Forall (λ p, length p = 5%nat) [five_zeros; five_ones] ∧
  (5 = 0 ∨ length [five_zeros; five_ones] ≤ 5)%nat ∧
  (block_count 5 (5 / length [five_zeros; five_ones]) < 6)%nat ∧
  Crossover 6 [five_zeros; five_ones] world_010
    = Ok (blockwise 2 5 [five_zeros; five_ones] world_010, advance 3 world_010).
Proof.
  assert (H1 : [five_zeros; five_ones] ≠ []) by discriminate.
  assert (H2 : Forall (λ p, length p = 5%nat) [five_zeros; five_ones]).
  { repeat constructor. }
  assert (H3 : (5 = 0 ∨ length [five_zeros; five_ones] ≤ 5)%nat).
  { right. simpl. lia. }
  assert (H4 : (block_count 5 (5 / length [five_zeros; five_ones]) < 6)%nat).
  { vm_compute. lia. }
  repeat (split; [assumption|]).
  exact (proj1 (Crossover_floor_blocks _ 5 6 world_010 H1 H2 H3 H4)).
Defined.

(** With a block width of 0 the loop makes no progress: every budget runs
    out. *)
Lemma crossover_loop_stuck (parents : list Chromosome) (L : Z) :
  parents ≠ [] → 0 < L →
  ∀ fuel res w, crossover_loop fuel parents L 0 0 res w = OutOfFuel.
Proof.
  intros Hne HL.
  assert (Hpos : 0 < len parents).
  { unfold len. destruct parents; [done|simpl; lia]. }
  induction fuel as [|fuel IH]; intros res w; [done|].
  rewrite crossover_loop_S.
  destruct (Z.ltb_spec 0 L); [|lia]. cbn zeta.
  rewrite (bind_Ok _ _ _ _ _ (Intn_pos _ w Hpos)).
  rewrite Z.add_0_l. destruct (Z.ltb_spec L 0); [lia|].
  simpl. apply IH.
Qed.

Lemma Crossover_short_parents_diverge (first : Chromosome) (rest : list Chromosome) :
  (0 < length first < length (first :: rest))%nat →
  ∀ fuel w, Crossover fuel (first :: rest) w = OutOfFuel.
Proof.
  intros [Hlo Hhi] fuel w. unfold Crossover.
  erewrite (bind_Ok (lift _)); [|reflexivity].
  erewrite (bind_Ok (lift _)); cycle 1.
  { apply lift_Ok. by apply partLength_floor. }
  rewrite Nat.div_small by done.
  apply crossover_loop_stuck; [done|unfold len; lia].
Qed.

(** C3 fails on the code: for two parents of one gene each the block width
    is [1 / 2 = 0], the loop index never moves, and no budget is enough for
    [Crossover] to return. *)
Theorem Crossover_one_gene_never_returns :
  ∀ fuel w, Crossover fuel [[0]; [1]] w = OutOfFuel.
Proof. apply Crossover_short_parents_diverge. simpl. lia. Qed.

(** ** The chromosome invariant *)

Lemma Forall_valid_genes (solver : GraphColoringSolver) (cs : list Chromosome) :
  Forall (valid_chromosome solver) cs →
  Forall (Forall (λ gene, 0 ≤ gene < NumColors solver)) cs.
Proof. intros Hcs. eapply Forall_impl; [done|]. by intros c [_ ?]. Qed.

(** The gene loop of the initializer overwrites [count] genes with colour
    indices. *)
Lemma fill_genes_valid (numColors : Z) (count : nat) :
  count = 0%nat ∨ 1 ≤ numColors →
  ∀ j chr w, (j + count ≤ length chr)%nat →
    Forall (λ gene, 0 ≤ gene < numColors) chr →
    ∃ chr', fill_genes count numColors (Z.of_nat j) chr w
              = Ok (chr', advance count w) ∧
            length chr' = length chr ∧
            Forall (λ gene, 0 ≤ gene < numColors) chr'.
Proof.
  intros [->|Hcolors].
  { intros j chr w _ Hchr. exists chr. simpl. unfold mret, M_ret.
    by rewrite advance_0. }
  induction count as [|count IH]; intros j chr w Hlen Hchr.
  - exists chr. simpl. unfold mret, M_ret. by rewrite advance_0.
  - cbn [fill_genes].
    rewrite (bind_Ok _ _ _ _ _ (Intn_pos numColors w ltac:(lia))).
    erewrite (bind_Ok (lift _)); cycle 1.
    { apply lift_Ok, store_in_range. lia. }
    replace (Z.of_nat j + 1) with (Z.of_nat (S j)) by lia.
    destruct (IH (S j) (<[j := draw w 0 `mod` numColors]> chr) (advance 1 w))
      as (chr' & Hrun & Hlen' & Hchr').
    + rewrite length_insert. lia.
    + apply Forall_insert; [done|]. apply Z.mod_pos_bound. lia.
    + exists chr'. rewrite Hrun, advance_advance.
      rewrite length_insert in Hlen'. done.
Qed.

Lemma fill_population_valid (solver : GraphColoringSolver) :
  NodeCount (SolverGraph solver) = 0 ∨ 1 ≤ NumColors solver →
  ∀ count i pop w, (i + count ≤ length pop)%nat →
    Forall (valid_chromosome solver) (take i pop) →
    ∃ pop' w', fill_population count solver (Z.of_nat i) pop w = Ok (pop', w') ∧
               length pop' = length pop ∧
               logged w' = logged w ∧
               Forall (valid_chromosome solver) (take (i + count) pop').
Proof.
  intros Hcolors. induction count as [|count IH]; intros i pop w Hlen Hpop.
  - exists pop, w. simpl. by rewrite Nat.add_0_r.
  - cbn [fill_population]. cbn zeta.
    assert (Hnodes : 0 ≤ NodeCount (SolverGraph solver)) by (unfold NodeCount, len; lia).
    erewrite (bind_Ok (lift _)); cycle 1.
    { apply lift_Ok. unfold make.
      destruct (Z.ltb_spec (NodeCount (SolverGraph solver)) 0); [lia|done]. }
    destruct (fill_genes_valid (NumColors solver)
                (Z.to_nat (NodeCount (SolverGraph solver)))
                ltac:(lia) 0
                (replicate (Z.to_nat (NodeCount (SolverGraph solver))) 0) w)
      as (chr & Hrun & Hlen' & Hchr).
    { rewrite length_replicate. lia. }
    { destruct Hcolors as [->|Hcolors]; [constructor|].
      apply Forall_replicate. lia. }
    rewrite (bind_Ok _ _ _ _ _ Hrun).
    erewrite (bind_Ok (lift _)); cycle 1.
    { apply lift_Ok, store_in_range. lia. }
    replace (Z.of_nat i + 1) with (Z.of_nat (S i)) by lia.
    destruct (IH (S i) (<[i := chr]> pop)
                (advance (Z.to_nat (NodeCount (SolverGraph solver))) w))
      as (pop' & w' & Hrun' & Hlen'' & Hlog & Hpop').
    + rewrite length_insert. lia.
    + rewrite (take_S_r _ _ chr) by (apply list_lookup_insert_eq; lia).
      rewrite take_insert_ge by lia.
      apply Forall_app. split; [done|]. apply Forall_singleton.
      split; [|done]. unfold len. rewrite Hlen', length_replicate. lia.
    + exists pop', w'. rewrite Hrun'. rewrite length_insert in Hlen''.
      replace (i + S count)%nat with (S i + count)%nat by lia. done.
Qed.

Lemma RandomPopulation_valid (solver : GraphColoringSolver) (size : Z) (w : World) :
  NodeCount (SolverGraph solver) = 0 ∨ 1 ≤ NumColors solver → 0 ≤ size →
  ∃ pop w', RandomPopulation solver size w = Ok (pop, w') ∧
            len pop = size ∧ logged w' = logged w ∧
            Forall (valid_chromosome solver) pop.
Proof.
  intros Hcolors Hsize. unfold RandomPopulation.
  erewrite (bind_Ok (lift _)); cycle 1.
  { apply lift_Ok. unfold make. destruct (Z.ltb_spec size 0); [lia|done]. }
  destruct (fill_population_valid solver Hcolors (Z.to_nat size) 0
              (replicate (Z.to_nat size) []) w)
    as (pop & w' & Hrun & Hlen & Hlog & Hpop).
  { rewrite length_replicate. lia. }
  { constructor. }
  exists pop, w'. change (Z.of_nat 0) with 0 in Hrun. rewrite Hrun.
  rewrite length_replicate in Hlen. split; [done|].
  split; [unfold len; lia|]. split; [done|].
  rewrite take_ge in Hpop by lia. done.
Qed.

Lemma Crossover_valid (solver : GraphColoringSolver) fuel parents w child w' :
  Forall (valid_chromosome solver) parents →
  Crossover fuel parents w = Ok (child, w') →
  valid_chromosome solver child.
Proof.
  intros Hparents Hrun.
  apply (Crossover_returns (λ gene, 0 ≤ gene < NumColors solver)) in Hrun
    as (first & Hfirst & Hlen & Hgenes); [|by apply Forall_valid_genes].
  apply list_elem_of_lookup_2 in Hfirst.
  rewrite Forall_forall in Hparents. destruct (Hparents _ Hfirst) as [Hn _].
  split; [|done]. unfold len in *. lia.
Qed.

Section WithLibrary.
Context `{GoLib}.

Lemma mutate_loop_valid (numColors n : Z) (count : nat) :
  count = 0%nat ∨ 1 ≤ numColors →
  ∀ i child w, (i + count ≤ length child)%nat →
    Forall (λ gene, 0 ≤ gene < numColors) child →
    ∃ child' w', mutate_loop count numColors n (Z.of_nat i) child w = Ok (child', w') ∧
                 length child' = length child ∧
                 logged w' = logged w ∧
                 Forall (λ gene, 0 ≤ gene < numColors) child'.
Proof.
  intros [->|Hcolors].
  { intros i child w _ Hchild. by exists child, w. }
  induction count as [|count IH]; intros i child w Hlen Hchild.
  - by exists child, w.
  - cbn [mutate_loop].
    erewrite (bind_Ok (Float32_below_recip _)); [|reflexivity].
    replace (Z.of_nat i + 1) with (Z.of_nat (S i)) by lia.
    destruct (Float32_lt_recip (draw w 0) n).
    + erewrite bind_Ok; cycle 1.
      { rewrite (bind_Ok _ _ _ _ _ (Intn_pos numColors _ ltac:(lia))).
        apply lift_Ok, store_in_range. lia. }
      destruct (IH (S i) (<[i := draw (advance 1 w) 0 `mod` numColors]> child)
                  (advance 1 (advance 1 w))) as (child' & w' & Hrun & Hlen' & Hlog & Hvalid).
      * rewrite length_insert. lia.
      * apply Forall_insert; [done|]. apply Z.mod_pos_bound. lia.
      * exists child', w'. rewrite Hrun. rewrite length_insert in Hlen'. done.
    + erewrite bind_Ok; [|reflexivity].
      destruct (IH (S i) child (advance 1 w)) as (child' & w' & Hrun & Hlen' & Hlog & Hvalid);
        [lia|done|].
      exists child', w'. by rewrite Hrun.
Qed.

Lemma Mutate_valid (solver : GraphColoringSolver) (child : Chromosome) (w : World) :
  NodeCount (SolverGraph solver) = 0 ∨ 1 ≤ NumColors solver →
  valid_chromosome solver child →
  ∃ child' w', Mutate solver child w = Ok (child', w') ∧
               logged w' = logged w ∧
               valid_chromosome solver child'.
Proof.
  intros Hcolors [Hlen Hgenes]. unfold Mutate.
  destruct (mutate_loop_valid (NumColors solver) (len child) (length child)
              ltac:(unfold len in *; lia) 0 child w) as (child' & w' & Hrun & Hlen' & Hlog & Hvalid);
    [lia|done|].
  exists child', w'. change (Z.of_nat 0) with 0 in Hrun.
  split; [done|]. split; [done|]. split; [|done]. unfold len in *. lia.
Qed.

(** C9: with [numColors >= 1], every chromosome that [RandomPopulation]
    produces, that [Crossover] returns on valid parents, or that [Mutate]
    returns on a valid chromosome has one gene per node and every gene in
    [[0, numColors)].  [RandomPopulation] and [Mutate] always return;
    [Crossover] returns when the parents have no gene or at least as many
    genes as there are parents. *)
Theorem chromosomes_stay_valid (solver : GraphColoringSolver) :
  1 ≤ NumColors solver →
  (∀ size w, 0 ≤ size →
     ∃ pop w', RandomPopulation solver size w = Ok (pop, w') ∧
               len pop = size ∧ Forall (valid_chromosome solver) pop) ∧
  (∀ fuel parents w child w',
     Forall (valid_chromosome solver) parents →
     Crossover fuel parents w = Ok (child, w') →
     valid_chromosome solver child) ∧
  (∀ parents w,
     parents ≠ [] → Forall (valid_chromosome solver) parents →
     NodeCount (SolverGraph solver) = 0 ∨ len parents ≤ NodeCount (SolverGraph solver) →
     ∃ child w',
       Crossover (S (Z.to_nat (NodeCount (SolverGraph solver)))) parents w
         = Ok (child, w') ∧
       valid_chromosome solver child) ∧
  (∀ child w,
     valid_chromosome solver child →
     ∃ child' w', Mutate solver child w = Ok (child', w') ∧
                  valid_chromosome solver child').
Proof.
  intros Hcolors. split; [|split; [|split]].
  - intros size w Hsize.
    destruct (RandomPopulation_valid solver size w) as (pop & w' & ? & ? & ? & ?);
      [by right|done|]. by exists pop, w'.
  - intros fuel parents w child w' Hparents Hrun.
    by apply (Crossover_valid solver) in Hrun.
  - intros parents w Hne Hparents Hcase.
    set (L := Z.to_nat (NodeCount (SolverGraph solver))).
    assert (HL : Forall (λ p : Chromosome, length p = L) parents).
    { eapply Forall_impl; [exact Hparents|]. intros p [Hp _].
      unfold L, len in *. lia. }
    destruct (Crossover_blockwise_run parents L (S L) w Hne HL) as (Hrun & _).
    + unfold L, len in *. lia.
    + destruct (decide (L = 0%nat)) as [->|HLpos].
      { rewrite Nat.Div0.div_0_l. unfold block_count. simpl. lia. }
      assert (block_count L (L / length parents) ≤ L)%nat; [|lia].
      apply block_count_le.
      * apply floor_width_pos; [done|]. unfold L, len in *. lia.
      * assert (1 ≤ L / length parents)%nat; [|nia].
        apply floor_width_pos; [done|]. unfold L, len in *. lia.
    + eexists _, _. split; [exact Hrun|].
      by apply (Crossover_valid solver) in Hrun.
  - intros child w Hchild.
    destruct (Mutate_valid solver child w) as (child' & w' & ? & ? & ?);
      [by right|done|]. by exists child', w'.
Qed.

End WithLibrary.

(** ** Evolutionary loop *)

Section SolveProperties.
Context `{GoLib}.

Lemma SelectParents_valid (solver : GraphColoringSolver) (population : Population) w :
  population ≠ [] → Forall (valid_chromosome solver) population →
  ∃ p0 p1 w', SelectParents population w = Ok ([p0; p1], w') ∧
              logged w' = logged w ∧
              valid_chromosome solver p0 ∧ valid_chromosome solver p1.
Proof.
  intros Hne Hpop.
  destruct (SelectParents_run population w Hne)
    as (K & p0 & p1 & Hrun & _ & Hp0 & Hp1 & _).
  exists p0, p1, (advance (S K) w). split; [done|]. split; [done|].
  apply lookupZ_Some in Hp0 as [_ Hp0], Hp1 as [_ Hp1].
  rewrite Forall_lookup in Hpop. eauto.
Qed.

Lemma Crossover_two_valid (solver : GraphColoringSolver) (p0 p1 : Chromosome) fuel w :
  valid_chromosome solver p0 → valid_chromosome solver p1 →
  NodeCount (SolverGraph solver) ≠ 1 →
  (Z.to_nat (NodeCount (SolverGraph solver)) < fuel)%nat →
  ∃ child w', Crossover fuel [p0; p1] w = Ok (child, w') ∧
              logged w' = logged w ∧
              valid_chromosome solver child.
Proof.
  intros Hp0 Hp1 Hnodes Hfuel.
  set (L := Z.to_nat (NodeCount (SolverGraph solver))) in *.
  assert (Hnn : 0 ≤ NodeCount (SolverGraph solver)) by (unfold NodeCount, len; lia).
  assert (HL : Forall (λ p : Chromosome, length p = L) [p0; p1]).
  { destruct Hp0 as [Hp0 _], Hp1 as [Hp1 _]. unfold L, len in *.
    repeat constructor; lia. }
  destruct (Crossover_blockwise_run [p0; p1] L fuel w) as (Hrun & _); [done|done| | |].
  - simpl. lia.
  - destruct (decide (L = 0%nat)) as [->|HLpos].
    { unfold block_count. simpl. lia. }
    assert (1 ≤ L / length [p0; p1])%nat by (apply floor_width_pos; [done|simpl; lia]).
    assert (block_count L (L / length [p0; p1]) ≤ L)%nat; [|lia].
    apply block_count_le; [done|nia].
  - eexists _, _. split; [exact Hrun|]. split; [done|].
    apply (Crossover_valid solver) in Hrun; [done|].
    apply Forall_cons. split; [done|]. by apply Forall_singleton.
Qed.

(** On a graph without edges every offspring is produced and scores 0. *)
Lemma make_children_edgeless (solver : GraphColoringSolver) (population : Population)
    (fuel : nat) :
  edgeless (SolverGraph solver) →
  NodeCount (SolverGraph solver) = 0 ∨
    (2 ≤ NodeCount (SolverGraph solver) ∧ 1 ≤ NumColors solver) →
  (Z.to_nat (NodeCount (SolverGraph solver)) < fuel)%nat →
  population ≠ [] → Forall (valid_chromosome solver) population →
  ∀ count scored w, Forall (λ sc, score sc = 0) scored →
    ∃ scored' w',
      make_children count fuel solver population scored w = Ok (scored', w') ∧
      length scored' = (length scored + count)%nat ∧
      logged w' = logged w ∧
      Forall (λ sc, score sc = 0) scored'.
Proof.
  intros Hedgeless Hcase Hfuel Hne Hpop.
  induction count as [|count IH]; intros scored w Hscored.
  - exists scored, w. simpl. by rewrite Nat.add_0_r.
  - cbn [make_children].
    destruct (SelectParents_valid solver population w Hne Hpop)
      as (p0 & p1 & w1 & Hsel & Hlog1 & Hp0 & Hp1).
    rewrite (bind_Ok _ _ _ _ _ Hsel).
    destruct (Crossover_two_valid solver p0 p1 fuel w1 Hp0 Hp1 ltac:(lia) Hfuel)
      as (child & w2 & Hcross & Hlog2 & Hchild).
    rewrite (bind_Ok _ _ _ _ _ Hcross).
    destruct (Mutate_valid solver child w2 ltac:(lia) Hchild)
      as (mutated & w3 & Hmut & Hlog3 & Hmutated).
    rewrite (bind_Ok _ _ _ _ _ Hmut).
    erewrite (bind_Ok (lift _)); cycle 1.
    { apply lift_Ok. by apply CalculateFitness_edgeless. }
    destruct (IH (scored ++ [mkScored mutated 0]) w3)
      as (scored' & w' & Hrun & Hlen & Hlog & Hzero).
    { apply Forall_app. split; [done|]. by apply Forall_singleton. }
    exists scored', w'. rewrite Hrun. rewrite length_app in Hlen. simpl in Hlen.
    split; [done|]. split; [lia|]. split; [congruence|done].
Qed.

Lemma replace_population_length (scored : list scoredChromosome) :
  ∀ count i population,
    (i + count ≤ length scored)%nat → (i + count ≤ length population)%nat →
    ∃ population',
      replace_population count (Z.of_nat i) scored population = Ok population' ∧
      length population' = length population.
Proof.
  induction count as [|count IH]; intros i population Hscored Hpop.
  - by exists population.
  - cbn [replace_population].
    destruct (lookup_lt_is_Some_2 scored i) as [sc Hsc]; [lia|].
    rewrite (index_of_nat _ _ _ Hsc). simpl.
    rewrite store_in_range by lia. simpl.
    replace (Z.of_nat i + 1) with (Z.of_nat (S i)) by lia.
    destruct (IH (S i) (<[i := chromosome sc]> population))
      as (population' & Hrun & Hlen); [lia|rewrite length_insert; lia|].
    exists population'. rewrite length_insert in Hlen. done.
Qed.

(** On a graph without edges the first generation ends the loop. *)
Lemma solve_loop_edgeless (solver : GraphColoringSolver) (population : Population)
    (fuel remaining : nat) (popSize : Z) (w : World) :
  edgeless (SolverGraph solver) →
  NodeCount (SolverGraph solver) = 0 ∨
    (2 ≤ NodeCount (SolverGraph solver) ∧ 1 ≤ NumColors solver) →
  (Z.to_nat (NodeCount (SolverGraph solver)) < fuel)%nat →
  1 ≤ popSize → len population = popSize →
  Forall (valid_chromosome solver) population →
  ∃ population' w',
    solve_loop (S remaining) 0 fuel solver popSize population w
      = Ok (population', w') ∧
    solve_loop 1 0 fuel solver popSize population w = Ok (population', w') ∧
    length population' = length population ∧
    logged w' = logged w ++ [(0, 0)].
Proof.
  intros Hedgeless Hcase Hfuel Hsize Hlen Hpop.
  assert (Hne : population ≠ []).
  { intros ->. unfold len in Hlen. simpl in Hlen. lia. }
  destruct (make_children_edgeless solver population fuel Hedgeless Hcase Hfuel
              Hne Hpop (Z.to_nat (2 * popSize)) [] w ltac:(constructor))
    as (scored & w1 & Hchildren & Hcount & Hlog & Hzero).
  simpl in Hcount.
  assert (Hsorted_len : length (sort_Slice scored) = Z.to_nat (2 * popSize)).
  { by rewrite (Permutation_length (sort_Slice_perm scored)). }
  assert (Hsorted_zero : Forall (λ sc, score sc = 0) (sort_Slice scored)).
  { by rewrite (sort_Slice_perm scored). }
  destruct (replace_population_length (sort_Slice scored) (Z.to_nat popSize) 0 population)
    as (population' & Hreplace & Hlen'); [lia|unfold len in Hlen; lia|].
  destruct (lookup_lt_is_Some_2 (sort_Slice scored) 0) as [best Hbest]; [lia|].
  assert (Hbest_zero : score best = 0).
  { by apply (Forall_lookup_1 _ _ _ _ Hsorted_zero Hbest). }
  assert (Hstep : ∀ r, solve_loop (S r) 0 fuel solver popSize population w
                       = Ok (population',
                             mkWorld (tape w1) (cursor w1) (logged w1 ++ [(0, 0)]))).
  { intros r. cbn [solve_loop]. cbn zeta.
    rewrite (bind_Ok _ _ _ _ _ Hchildren).
    erewrite (bind_Ok (lift _)); [|apply lift_Ok, Hreplace].
    erewrite (bind_Ok (lift _)); [|apply lift_Ok, (index_of_nat _ 0 _ Hbest)].
    rewrite Hbest_zero. simpl. reflexivity. }
  exists population', (mkWorld (tape w1) (cursor w1) (logged w1 ++ [(0, 0)])).
  split; [apply Hstep|]. split; [apply Hstep|]. split; [done|].
  simpl. by rewrite Hlog.
Qed.

End SolveProperties.

(** C6: whenever [Solve] returns, its solution is entry 0 of the population
    that the generation loop ended with, and its score is the value that
    [CalculateFitness] gives on that chromosome, hence half the number of its
    equal-coloured adjacency pairs; with no iteration to run, the loop hands
    the initial population through and the score is still computed. *)
Theorem Solve_returns_fresh_score `{GoLib} (fuel : nat) (solver : GraphColoringSolver)
    (numIterations popSize : Z) (w w' : World) (solution : GraphColoringSolution) :
  Solve fuel solver numIterations popSize w = Ok (solution, w') →
  ∃ initial w0 final,
    RandomPopulation solver popSize w = Ok (initial, w0) ∧
    solve_loop (Z.to_nat numIterations) 0 fuel solver popSize initial w0
      = Ok (final, w') ∧
    final !! 0%nat = Some (Coloring solution) ∧
    CalculateFitness (SolverGraph solver) (Coloring solution) = Ok (Score solution) ∧
    Score solution
      = Z.of_nat (conflicts (SolverGraph solver) (Coloring solution) / 2) ∧
    (numIterations ≤ 0 → final = initial).
Proof.
  unfold Solve. intros Hrun.
  apply bind_Ok_inv in Hrun as (initial & w0 & Hinit & Hrun).
  apply bind_Ok_inv in Hrun as (final & w1 & Hloop & Hrun).
  apply bind_Ok_inv in Hrun as (best & w2 & Hbest & Hrun).
  apply lift_Ok_inv in Hbest as [Hbest ->].
  apply bind_Ok_inv in Hrun as (v & w2 & Hscore & Hrun).
  apply lift_Ok_inv in Hscore as [Hscore ->].
  unfold mret, M_ret in Hrun. injection Hrun as <- <-.
  apply index_Ok, lookupZ_Some in Hbest as [_ Hbest]. simpl in *.
  exists initial, w0, final. repeat (split; [done|]). split.
  - by apply CalculateFitness_returns.
  - intros Hnone. replace (Z.to_nat numIterations) with 0%nat in Hloop by lia.
    simpl in Hloop. unfold mret, M_ret in Hloop. by simplify_eq.
Qed.

Lemma Solve_returns_fresh_score_witness :
  Solve (H := reference_lib) 10 (NewGraphColoringSolver triangle 3) 5 4 world_7k3
    = Ok (mkSolution [0; 2; 1] 0, mkWorld (tape world_7k3) 100 [(0, 0)]) ∧
  CalculateFitness triangle [0; 2; 1] = Ok 0.
Proof.
  assert (Hrun : Solve (H := reference_lib) 10 (NewGraphColoringSolver triangle 3)
                   5 4 world_7k3
                 = Ok (mkSolution [0; 2; 1] 0, mkWorld (tape world_7k3) 100 [(0, 0)])).
  { vm_compute. reflexivity. }
  split; [exact Hrun|].
  destruct (Solve_returns_fresh_score _ _ _ _ _ _ _ Hrun)
    as (initial & w0 & final & _ & _ & _ & Hscore & _).
  exact Hscore.
Defined.

(** C7, as stated, fails: on two isolated nodes with [popSize = 0] no
    offspring is produced and [Solve] panics on [scoredPopulation[0]]
    instead of returning a solution of score 0. *)
Lemma Solve_empty_population_panics :
  edgeless two_isolated ∧
  ∀ fuel,
    Solve (H := reference_lib) fuel (NewGraphColoringSolver two_isolated 2) 3 0 world_zero
    = Panic.
Proof.
  split; [by repeat constructor|]. intros fuel. reflexivity.
Qed.

(** C7, amended: on a graph without edges whose node count is 0 or at least
    2, with [numColors >= 1] (needed only when there are nodes),
    [popSize >= 1] and [numIterations >= 1], [Solve] returns a solution of
    score 0 after exactly the first generation: it logs [(0, 0)] for
    iteration 0 and behaves as with an iteration budget of 1. *)
Theorem Solve_edgeless_first_iteration `{GoLib} (fuel : nat)
    (solver : GraphColoringSolver) (numIterations popSize : Z) (w : World) :
  edgeless (SolverGraph solver) →
  NodeCount (SolverGraph solver) = 0 ∨
    (2 ≤ NodeCount (SolverGraph solver) ∧ 1 ≤ NumColors solver) →
  1 ≤ popSize → 1 ≤ numIterations →
  (Z.to_nat (NodeCount (SolverGraph solver)) < fuel)%nat →
  ∃ coloring w',
    Solve fuel solver numIterations popSize w = Ok (mkSolution coloring 0, w') ∧
    logged w' = logged w ++ [(0, 0)] ∧
    Solve fuel solver 1 popSize w = Ok (mkSolution coloring 0, w').
Proof.
  intros Hedgeless Hcase Hsize Hiter Hfuel.
  destruct (RandomPopulation_valid solver popSize w ltac:(lia) ltac:(lia))
    as (initial & w0 & Hinit & Hlen & Hlog0 & Hvalid).
  destruct (Z.to_nat numIterations) as [|remaining] eqn:Hremaining; [lia|].
  destruct (solve_loop_edgeless solver initial fuel remaining popSize w0
              Hedgeless Hcase Hfuel Hsize Hlen Hvalid)
    as (final & w' & Hloop & Hloop1 & Hlen' & Hlog).
  destruct (lookup_lt_is_Some_2 final 0) as [best Hbest].
  { unfold len in Hlen. lia. }
  exists best, w'.
  assert (Hend : ∀ n, solve_loop n 0 fuel solver popSize initial w0 = Ok (final, w') →
                 (population ← RandomPopulation solver popSize;
                  population ← solve_loop n 0 fuel solver popSize population;
                  best ← lift (index population 0);
                  score ← lift (CalculateFitness (SolverGraph solver) best);
                  mret (mkSolution best score)) w = Ok (mkSolution best 0, w')).
  { intros n Hn. rewrite (bind_Ok _ _ _ _ _ Hinit). rewrite (bind_Ok _ _ _ _ _ Hn).
    erewrite (bind_Ok (lift _)); [|apply lift_Ok, (index_of_nat _ 0 _ Hbest)].
    erewrite (bind_Ok (lift _)); [|by apply lift_Ok, CalculateFitness_edgeless].
    reflexivity. }
  unfold Solve. rewrite Hremaining.
  split; [by apply Hend|]. split; [congruence|].
  change (Z.to_nat 1) with 1%nat. by apply Hend.
Qed.

Lemma Solve_edgeless_first_iteration_witness :
  edgeless two_isolated ∧
  (NodeCount two_isolated = 0 ∨ (2 ≤ NodeCount two_isolated ∧ 1 ≤ 2)) ∧
  1 ≤ 2 ∧ 1 ≤ 3 ∧ (Z.to_nat (NodeCount two_isolated) < 10)%nat ∧
  ∃ coloring w',
    Solve (H := reference_lib) 10 (NewGraphColoringSolver two_isolated 2) 3 2 world_7k3
      = Ok (mkSolution coloring 0, w').
Proof.
  assert (H1 : edgeless two_isolated) by (by repeat constructor).
  assert (H2 : NodeCount two_isolated = 0 ∨ (2 ≤ NodeCount two_isolated ∧ 1 ≤ 2)).
  { right. vm_compute. split; discriminate. }
  assert (H3 : 1 ≤ 2) by lia.
  assert (H4 : 1 ≤ 3) by lia.
  assert (H5 : (Z.to_nat (NodeCount two_isolated) < 10)%nat) by (vm_compute; lia).
  repeat (split; [assumption|]).
  destruct (Solve_edgeless_first_iteration (H := reference_lib) 10
              (NewGraphColoringSolver two_isolated 2) 3 2 world_7k3 H1 H2 H3 H4 H5)
    as (coloring & w' & Hrun & _).
  by exists coloring, w'.
Defined.

Lemma chromosomes_stay_valid_witness :
  1 ≤ NumColors (NewGraphColoringSolver triangle 3) ∧
  ∃ child w',
    Mutate (H := reference_lib) (NewGraphColoringSolver triangle 3) [0; 1; 2] world_zero
      = Ok (child, w') ∧
    valid_chromosome (NewGraphColoringSolver triangle 3) child.
Proof.
  assert (Hcolors : 1 ≤ NumColors (NewGraphColoringSolver triangle 3)) by (simpl; lia).
  split; [exact Hcolors|].
  apply (chromosomes_stay_valid (H := reference_lib) _ Hcolors).
  split; [reflexivity|]. repeat constructor; simpl; lia.
Defined.

(** ** Graph loading *)

(** C8 fails on the code: a [p] line with fewer than three tokens, or an [e]
    line with fewer than three, makes [LoadGraph] panic on [tokens[2]]
    whatever follows in the file, where a non-numeric token is returned as
    an error value. *)
Theorem LoadGraph_missing_token_panics :
  (∀ rest, LoadGraph (inl ("p edge" +:+ nl +:+ rest)) = Panic) ∧
  (∀ rest, LoadGraph (inl ("p edge 3 1" +:+ nl +:+ "e 1" +:+ nl +:+ rest)) = Panic) ∧
  LoadGraph (inl ("p edge x 1" +:+ nl)) = Ok (inr (NumError "x")).
Proof.
  split; [|split].
  - intros rest. reflexivity.
  - intros rest. reflexivity.
  - reflexivity.
Qed.

(** ** Visualization output *)

Lemma write_edges_working i adj file :
  ∃ file', write_edges working_fs i adj file = (None, file').
Proof.
  revert file. induction adj as [|j rest IH]; intros file; simpl; eauto.
Qed.

Lemma write_rows_working i rows file :
  ∃ file', write_rows working_fs i rows file = (None, file').
Proof.
  revert i file. induction rows as [|adj rest IH]; intros i file; simpl; [eauto|].
  destruct (write_edges_working i adj file) as [file' ->]. apply IH.
Qed.

Lemma write_styles_returns fs (colors : list Z) :
  ∀ count i file, (i + count ≤ length colors)%nat →
    ∃ file', write_styles fs count (Z.of_nat i) colors file = Ok file'.
Proof.
  induction count as [|count IH]; intros i file Hlen; simpl; [eauto|].
  destruct (lookup_lt_is_Some_2 colors i) as [color Hcolor]; [lia|].
  rewrite (index_of_nat _ _ _ Hcolor). simpl.
  destruct (WriteString fs file _) as [err file'].
  replace (Z.of_nat i + 1) with (Z.of_nat (S i)) by lia. apply IH. lia.
Qed.

(** C10: when the output file cannot be opened, [SaveGraphViz] returns
    [nil] and writes nothing; a run on a working file system, for a graph
    with one colour per node, returns [nil] as well, so the returned value
    does not tell the two apart. *)
Theorem SaveGraphViz_open_failure_returns_nil (fs : FileSystem) (g : Graph)
    (err : error) :
  open_error fs = Some err →
  SaveGraphViz fs g = Ok (None, []) ∧
  (len (Colors g) = NodeCount g →
   ∃ out, SaveGraphViz working_fs g = Ok (None, out) ∧ out ≠ []).
Proof.
  intros Hopen. split.
  - unfold SaveGraphViz. by rewrite Hopen.
  - intros Hcolors. unfold SaveGraphViz. simpl.
    destruct (write_rows_working 0 (AdjecencyList g)
                (mkFile 1 ["graph {" +:+ nl +:+ tab +:+ "node [colorscheme=accent8]" +:+ nl]))
      as [file1 Hrows].
    rewrite Hrows.
    destruct (write_styles_returns working_fs (Colors g)
                (Z.to_nat (NodeCount g)) 0 file1) as [file2 Hstyles].
    { unfold len in Hcolors. lia. }
    change (Z.of_nat 0) with 0 in Hstyles. rewrite Hstyles. simpl.
    eexists. split; [reflexivity|]. by destruct (content file2).
Qed.

Lemma SaveGraphViz_open_failure_returns_nil_witness :
  open_error (mkFS (Some PathError) (λ _, None)) = Some PathError ∧
  SaveGraphViz (mkFS (Some PathError) (λ _, None)) triangle = Ok (None, []).
Proof.
  assert (Hopen : open_error (mkFS (Some PathError) (λ _, None)) = Some PathError)
    by reflexivity.
  split; [exact Hopen|].
  exact (proj1 (SaveGraphViz_open_failure_returns_nil _ triangle _ Hopen)).
Defined.

(** * Further properties of the code *)

(** ** Stored adjacency pairs *)

Lemma elem_of_pairs_from (a b i : Z) (rows : list (list Z)) :
  (a, b) ∈ pairs_from i rows ↔
  ∃ (k : nat) row, rows !! k = Some row ∧ a = i + Z.of_nat k ∧ b ∈ row.
Proof.
  revert i. induction rows as [|adj rest IH]; intros i; cbn [pairs_from].
  - split; [by intros ?%elem_of_nil|]. by intros (k & row & ? & _).
  - rewrite elem_of_app, list_elem_of_fmap, IH. split.
    + intros [(j & [= -> ->] & Hj)|(k & row & Hrow & -> & Hb)].
      * exists 0%nat, adj. split; [done|]. split; [lia|done].
      * exists (S k), row. split; [done|]. split; [lia|done].
    + intros ([|k] & row & Hrow & -> & Hb); simpl in Hrow.
      * left. simplify_eq. exists b. split; [f_equal; lia|done].
      * right. exists k, row. split; [done|]. split; [lia|done].
Qed.

Lemma length_pairs_from (i : Z) (rows : list (list Z)) :
  length (pairs_from i rows) = sum_list (length <$> rows).
Proof.
  revert i. induction rows as [|adj rest IH]; intros i; cbn [pairs_from]; [done|].
  rewrite length_app, length_fmap, IH. done.
Qed.

(** ** Random graphs *)

(** The inner loop extends row [i] by a strictly increasing choice among the
    [count] candidates from [j0] on, one draw per candidate. *)
Lemma random_edges_run (below : Z → bool) (i : nat) :
  ∀ count j0 adj r0 w,
    adj !! i = Some r0 →
    ∃ extra,
      random_edges count below (Z.of_nat i) j0 adj w
        = Ok (<[i := r0 ++ extra]> adj, advance count w) ∧
      StronglySorted Z.lt extra ∧
      Forall (λ j, j0 ≤ j < j0 + Z.of_nat count) extra.
Proof.
  induction count as [|count IH]; intros j0 adj r0 w Hrow.
  - exists []. rewrite app_nil_r, (list_insert_id _ _ _ Hrow), advance_0.
    split; [done|]. split; constructor.
  - cbn [random_edges].
    erewrite (bind_Ok (Float32_lt _)); [|reflexivity].
    assert (Hi : (i < length adj)%nat) by (by eapply lookup_lt_Some).
    destruct (below (draw w 0)).
    + erewrite bind_Ok; cycle 1.
      { erewrite (bind_Ok (lift _)); [|apply lift_Ok, (index_of_nat _ _ _ Hrow)].
        apply lift_Ok, store_in_range, Hi. }
      destruct (IH (j0 + 1) (<[i := r0 ++ [j0]]> adj) (r0 ++ [j0]) (advance 1 w))
        as (extra & Hrun & Hsorted & Hrange).
      { by apply list_lookup_insert_eq. }
      exists (j0 :: extra). rewrite Hrun, list_insert_insert_eq, advance_advance.
      rewrite <- app_assoc. split; [done|]. split.
      * constructor; [done|]. eapply Forall_impl; [exact Hrange|]. simpl. lia.
      * constructor; [lia|]. eapply Forall_impl; [exact Hrange|]. simpl. lia.
    + erewrite bind_Ok; [|reflexivity].
      destruct (IH (j0 + 1) adj r0 (advance 1 w) Hrow)
        as (extra & Hrun & Hsorted & Hrange).
      exists extra. rewrite Hrun, advance_advance. split; [done|]. split; [done|].
      eapply Forall_impl; [exact Hrange|]. simpl. lia.
Qed.

Lemma random_rows_run (below : Z → bool) (n : nat) :
  ∀ count i adj w,
    (i + count = n)%nat → length adj = n →
    (∀ k row, adj !! k = Some row →
       ((k < i)%nat → upper_row (Z.of_nat n) k row) ∧ ((i ≤ k)%nat → row = [])) →
    ∃ adj' d,
      random_rows count below (Z.of_nat n) (Z.of_nat i) adj w
        = Ok (adj', advance d w) ∧
      (2 * d = count * (count - 1))%nat ∧
      length adj' = n ∧
      ∀ k row, adj' !! k = Some row → upper_row (Z.of_nat n) k row.
Proof.
  induction count as [|count IH]; intros i adj w Hcount Hlen Hrows.
  - exists adj, 0%nat. simpl. unfold mret, M_ret. rewrite advance_0.
    split; [done|]. split; [done|]. split; [done|].
    intros k row Hrow. apply (Hrows k row Hrow).
    apply lookup_lt_Some in Hrow. lia.
  - cbn [random_rows].
    destruct (lookup_lt_is_Some_2 adj i) as [r0 Hr0]; [lia|].
    assert (r0 = []) as -> by (by apply (Hrows i r0 Hr0)).
    destruct (random_edges_run below i (Z.to_nat (Z.of_nat n - (Z.of_nat i + 1)))
                (Z.of_nat i + 1) adj [] w Hr0) as (extra & Hrun & Hsorted & Hrange).
    rewrite (bind_Ok _ _ _ _ _ Hrun). simpl app.
    replace (Z.of_nat i + 1) with (Z.of_nat (S i)) by lia.
    destruct (IH (S i) (<[i := extra]> adj)
                (advance (Z.to_nat (Z.of_nat n - Z.of_nat (S i))) w))
      as (adj' & d & Hrun' & Hd & Hlen' & Hrows'); [lia|by rewrite length_insert|..].
    { intros k row Hrow. destruct (decide (k = i)) as [->|Hne].
      - rewrite list_lookup_insert_eq in Hrow by lia. simplify_eq.
        split; [|lia]. intros _. split; [done|].
        eapply Forall_impl; [exact Hrange|]. simpl. lia.
      - rewrite list_lookup_insert_ne in Hrow by done.
        destruct (Hrows k row Hrow) as [Hlow Hhigh].
        split; intros; [apply Hlow|apply Hhigh]; lia. }
    replace (Z.of_nat n - (Z.of_nat i + 1)) with (Z.of_nat n - Z.of_nat (S i)) by lia.
    exists adj', (Z.to_nat (Z.of_nat n - Z.of_nat (S i)) + d)%nat.
    rewrite Hrun', advance_advance. split; [done|]. split; [nia|]. done.
Qed.

(** X1: for a node count [n >= 0], [NewRandomGraph] returns after one draw
    per unordered pair of nodes, [n(n-1)/2] in all, a graph of [n] nodes
    whose colours are all 0 and whose row [i] lists, in increasing order
    and without repetition, only nodes above [i] and below [n]: every
    adjacency entry is a node index, no node lists itself, and an edge is
    stored at its lower end only. *)
Theorem NewRandomGraph_upper_triangular (below : Z → bool) (nodeCount : Z)
    (w : World) :
  0 ≤ nodeCount →
  ∃ g d,
    NewRandomGraph below nodeCount w = Ok (g, advance d w) ∧
    (2 * d = Z.to_nat nodeCount * (Z.to_nat nodeCount - 1))%nat ∧
    NodeCount g = nodeCount ∧
    Colors g = replicate (Z.to_nat nodeCount) 0 ∧
    (∀ i row, AdjecencyList g !! i = Some row → upper_row nodeCount i row) ∧
    graph_wf g ∧ loop_free g ∧
    (∀ i j, (i, j) ∈ adjacency_pairs g → (j, i) ∉ adjacency_pairs g).
Proof.
  intros Hn. set (n := Z.to_nat nodeCount).
  assert (Hnn : nodeCount = Z.of_nat n) by lia.
  destruct (random_rows_run below n n 0 (replicate n []) w)
    as (adj & d & Hrun & Hd & Hlen & Hrows); [lia|by rewrite length_replicate|..].
  { intros k row [-> _]%lookup_replicate. split; [lia|done]. }
  assert (Hupper : ∀ i row, adj !! i = Some row → upper_row nodeCount i row).
  { rewrite Hnn. exact Hrows. }
  assert (Hpairs : ∀ i j, (i, j) ∈ pairs_from 0 adj → 0 ≤ i < j ∧ j < nodeCount).
  { intros i j (k & row & Hrow & -> & Hj)%elem_of_pairs_from.
    destruct (Hupper k row Hrow) as [_ Hrange].
    rewrite Forall_forall in Hrange. specialize (Hrange j Hj). lia. }
  exists (mkGraph adj (replicate n 0)), d. split; [|split; [done|split; [|split; [done|split; [done|split; [|split]]]]]].
  - unfold NewRandomGraph, make.
    destruct (Z.ltb_spec nodeCount 0); [lia|]. simpl lift.
    erewrite (bind_Ok (lift _)); [|reflexivity].
    erewrite (bind_Ok (lift _)); [|reflexivity].
    fold n. rewrite Hnn at 1. change 0 with (Z.of_nat 0).
    by rewrite (bind_Ok _ _ _ _ _ Hrun).
  - unfold NodeCount, len. simpl. lia.
  - unfold graph_wf. simpl. apply Forall_lookup. intros k row Hrow.
    destruct (Hupper k row Hrow) as [_ Hrange].
    eapply Forall_impl; [exact Hrange|]. simpl. unfold NodeCount, len. simpl. lia.
  - intros i Hin. apply Hpairs in Hin. lia.
  - intros i j Hij Hji. apply Hpairs in Hij, Hji. lia.
Qed.

Lemma NewRandomGraph_upper_triangular_witness :
  0 ≤ 3 ∧
  ∃ g d, NewRandomGraph (λ z, z <? 1) 3 world_010 = Ok (g, advance d world_010) ∧
         graph_wf g.
Proof.
  assert (Hn : 0 ≤ 3) by lia.
  split; [exact Hn|].
  destruct (NewRandomGraph_upper_triangular (λ z, z <? 1) 3 world_010 Hn)
    as (g & d & Hrun & _ & _ & _ & _ & Hwf & _).
  by exists g, d.
Defined.

(** ** Fitness evaluator, continued *)

Lemma filter_fmap {A B} (f : A → B) (P : B → Prop) `{!∀ y, Decision (P y)}
    (l : list A) :
  filter P (f <$> l) = f <$> filter (λ x, P (f x)) l.
Proof.
  induction l as [|x l IH]; [done|].
  rewrite fmap_cons, !filter_cons. destruct (decide (P (f x))).
  - by rewrite fmap_cons, IH.
  - done.
Qed.

Lemma filter_ext_in {A} (P Q : A → Prop) `{!∀ x, Decision (P x), !∀ x, Decision (Q x)}
    (l : list A) :
  (∀ x, x ∈ l → (P x ↔ Q x)) → filter P l = filter Q l.
Proof.
  induction l as [|x l IH]; intros Hext; [done|].
  rewrite !filter_cons.
  assert (Hx : P x ↔ Q x) by (apply Hext; left).
  rewrite IH by (intros y Hy; apply Hext; by right).
  destruct (decide (P x)), (decide (Q x)); tauto.
Qed.

Section FitnessPanics.
Variable chromosome : Chromosome.

Lemma scan_adjacency_in_range i adj s :
  Forall (endpoints_colored chromosome) ((λ j, (i, j)) <$> adj) →
  ∃ s', scan_adjacency chromosome i adj s = Ok s'.
Proof.
  revert s. induction adj as [|j rest IH]; intros s Hall; simpl; [eauto|].
  rewrite fmap_cons in Hall. apply Forall_cons in Hall as [[[ci Hi] [cj Hj]] Hall].
  simpl in Hi, Hj. apply index_Ok in Hi, Hj. rewrite Hi, Hj. simpl. by apply IH.
Qed.

Lemma scan_adjacency_out_of_range i adj s :
  ¬ Forall (endpoints_colored chromosome) ((λ j, (i, j)) <$> adj) →
  scan_adjacency chromosome i adj s = Panic.
Proof.
  revert s. induction adj as [|j rest IH]; intros s Hnot; simpl.
  - destruct Hnot. constructor.
  - unfold index.
    destruct (lookupZ chromosome i) as [ci|] eqn:Hi; [|done]. simpl.
    destruct (lookupZ chromosome j) as [cj|] eqn:Hj; [|done]. simpl.
    apply IH. intros Hrest. apply Hnot. rewrite fmap_cons. constructor; [|done].
    split; simpl; [by rewrite Hi|by rewrite Hj].
Qed.

Lemma scan_nodes_in_range i rows s :
  Forall (endpoints_colored chromosome) (pairs_from i rows) →
  ∃ s', scan_nodes chromosome i rows s = Ok s'.
Proof.
  revert i s. induction rows as [|adj rest IH]; intros i s Hall; simpl; [eauto|].
  cbn [pairs_from] in Hall. apply Forall_app in Hall as [Hrow Hrest].
  destruct (scan_adjacency_in_range i adj s Hrow) as [s1 ->]. simpl. by apply IH.
Qed.

Lemma scan_nodes_out_of_range i rows s :
  ¬ Forall (endpoints_colored chromosome) (pairs_from i rows) →
  scan_nodes chromosome i rows s = Panic.
Proof.
  revert i s. induction rows as [|adj rest IH]; intros i s Hnot; simpl.
  - destruct Hnot. constructor.
  - cbn [pairs_from] in Hnot.
    destruct (decide (Forall (endpoints_colored chromosome) ((λ j, (i, j)) <$> adj)))
      as [Hrow|Hrow].
    + destruct (scan_adjacency_in_range i adj s Hrow) as [s1 ->]. simpl.
      apply IH. intros Hrest. apply Hnot. by apply Forall_app.
    + by rewrite scan_adjacency_out_of_range.
Qed.

End FitnessPanics.

(** X2: [CalculateFitness] returns exactly when both ends of every stored
    adjacency pair are positions of the chromosome, and then gives the halved
    match count; otherwise it panics with an index out of range.  Nodes
    without neighbours are never looked up. *)
Theorem CalculateFitness_returns_iff_in_range (g : Graph) (chromosome : Chromosome) :
  (Forall (endpoints_colored chromosome) (adjacency_pairs g) →
   CalculateFitness g chromosome = Ok (Z.of_nat (conflicts g chromosome / 2))) ∧
  (¬ Forall (endpoints_colored chromosome) (adjacency_pairs g) →
   CalculateFitness g chromosome = Panic).
Proof.
  unfold CalculateFitness, adjacency_pairs. split; intros Hrange.
  - destruct (scan_nodes_in_range chromosome 0 (AdjecencyList g) 0 Hrange) as [s Hs].
    assert (Hv : CalculateFitness g chromosome = Ok (s ÷ 2)).
    { unfold CalculateFitness. by rewrite Hs. }
    rewrite Hs. simpl. f_equal. by apply (CalculateFitness_returns g chromosome).
  - by rewrite scan_nodes_out_of_range.
Qed.

Lemma lookupZ_fmap {A B} (f : A → B) (l : list A) (i : Z) :
  lookupZ (f <$> l) i = f <$> lookupZ l i.
Proof. unfold lookupZ. destruct (i <? 0); [done|]. apply list_lookup_fmap. Qed.

Lemma scan_adjacency_recolor (f : Z → Z) `{!Inj (=) (=) f} chromosome i adj s :
  scan_adjacency (f <$> chromosome) i adj s = scan_adjacency chromosome i adj s.
Proof.
  revert s. induction adj as [|j rest IH]; intros s; simpl; [done|].
  unfold index. rewrite !lookupZ_fmap.
  destruct (lookupZ chromosome i) as [ci|]; [|done]. simpl.
  destruct (lookupZ chromosome j) as [cj|]; [|done]. simpl.
  rewrite IH. f_equal.
  destruct (Z.eqb_spec (f ci) (f cj)) as [Heq|Hne], (Z.eqb_spec ci cj) as [Heq'|Hne'];
    try done.
  - by apply (inj f) in Heq.
  - by subst.
Qed.

(** X3: renaming the colours by an injective map does not change the
    outcome of [CalculateFitness]: the fitness depends only on which stored
    pairs carry equal colours. *)
Theorem CalculateFitness_recolor (f : Z → Z) (g : Graph) (chromosome : Chromosome) :
  Inj (=) (=) f →
  CalculateFitness g (f <$> chromosome) = CalculateFitness g chromosome.
Proof.
  intros Hinj. unfold CalculateFitness. f_equal.
  generalize 0 at 2 4. generalize 0.
  induction (AdjecencyList g) as [|adj rest IH]; intros i s; simpl; [done|].
  rewrite scan_adjacency_recolor by done.
  destruct (scan_adjacency chromosome i adj s); simpl; [apply IH|done|done].
Qed.

Lemma CalculateFitness_recolor_witness :
  Inj (=) (=) (λ c : Z, c + 5) ∧
  CalculateFitness triangle ((λ c, c + 5) <$> [0; 0; 1]) = CalculateFitness triangle [0; 0; 1].
Proof.
  assert (Hinj : Inj (=) (=) (λ c : Z, c + 5)) by (intros x y; lia).
  split; [exact Hinj|].
  exact (CalculateFitness_recolor (λ c, c + 5) triangle [0; 0; 1] Hinj).
Defined.

Lemma proper_iff_no_conflicts (g : Graph) (chromosome : Chromosome) :
  proper_coloring g chromosome ↔ conflicts g chromosome = 0%nat.
Proof.
  unfold proper_coloring, conflicts.
  induction (adjacency_pairs g) as [|p ps IH]; [by split; [|constructor]|].
  rewrite Forall_cons, filter_cons, IH.
  destruct (decide (same_color chromosome p)); simpl; [|tauto].
  split; [tauto|lia].
Qed.

(** X4: whatever [CalculateFitness] returns lies between 0 and half the
    number of stored adjacency pairs, and it is 0 on every proper
    colouring. *)
Theorem CalculateFitness_range (g : Graph) (chromosome : Chromosome) (v : Z) :
  CalculateFitness g chromosome = Ok v →
  0 ≤ v ≤ Z.of_nat (length (adjacency_pairs g) / 2) ∧
  (proper_coloring g chromosome → v = 0).
Proof.
  intros Hv. apply CalculateFitness_returns in Hv. subst v. split.
  - split; [lia|]. apply inj_le, Nat.Div0.div_le_mono. apply length_filter.
  - intros Hproper%proper_iff_no_conflicts. by rewrite Hproper.
Qed.

Lemma CalculateFitness_range_witness :
  CalculateFitness triangle [0; 0; 0] = Ok 1 ∧
  0 ≤ 1 ≤ Z.of_nat (length (adjacency_pairs triangle) / 2).
Proof.
  assert (Hv : CalculateFitness triangle [0; 0; 0] = Ok 1) by reflexivity.
  split; [exact Hv|].
  exact (proj1 (CalculateFitness_range triangle [0; 0; 0] 1 Hv)).
Defined.

Lemma same_color_swap chromosome (p : Z * Z) :
  same_color chromosome (prod_swap p) ↔ same_color chromosome p.
Proof.
  unfold same_color. destruct p as [i j]. simpl. split.
  - intros [Hsome Heq]. split; [by rewrite <- Heq|done].
  - intros [Hsome Heq]. split; [by rewrite <- Heq|done].
Qed.

(** The equal-coloured pairs of a symmetrically stored, loop-free graph
    split evenly into those stored at the lower and at the upper end. *)
Lemma conflicts_symmetric (g : Graph) (chromosome : Chromosome) :
  stored_symmetrically g → loop_free g →
  conflicts g chromosome = (2 * undirected_conflicts g chromosome)%nat.
Proof.
  intros Hsym Hloop. unfold conflicts, undirected_conflicts.
  set (pairs := adjacency_pairs g) in *.
  set (M := filter (same_color chromosome) pairs).
  assert (HM : M ≡ₚ prod_swap <$> M).
  { unfold M, stored_symmetrically in *. fold pairs in Hsym.
    rewrite Hsym at 1. rewrite filter_fmap.
    by rewrite (list_filter_iff _ (same_color chromosome))
      by (intros p; apply same_color_swap). }
  assert (Hlow : filter (λ p : Z * Z, p.1 < p.2) M
                 ≡ₚ prod_swap <$> filter (λ p : Z * Z, p.2 < p.1) M).
  { rewrite HM at 1. by rewrite filter_fmap. }
  assert (Hhigh : filter (λ p : Z * Z, ¬ p.1 < p.2) M
                  = filter (λ p : Z * Z, p.2 < p.1) M).
  { apply filter_ext_in. intros [i j] Hin. simpl.
    apply list_elem_of_filter in Hin as [_ Hin].
    assert (i ≠ j) by (intros ->; by apply (Hloop j)). lia. }
  pose proof (filter_app_complement (λ p : Z * Z, p.1 < p.2) M) as Hsplit.
  apply Permutation_length in Hsplit, Hlow.
  rewrite length_app, Hhigh in Hsplit. rewrite length_fmap in Hlow.
  replace (filter (λ p : Z * Z, p.1 < p.2 ∧ same_color chromosome p) pairs)
    with (filter (λ p : Z * Z, p.1 < p.2) M) by apply list_filter_filter.
  lia.
Qed.

(** X5: on a graph that stores every edge at both ends and has no
    self-loop, the halving is exact: [CalculateFitness] returns the number of
    edges whose two ends carry the same colour, each edge counted once, and
    it returns 0 exactly on the proper colourings. *)
Theorem CalculateFitness_symmetric_storage (g : Graph) (chromosome : Chromosome) (v : Z) :
  stored_symmetrically g → loop_free g →
  CalculateFitness g chromosome = Ok v →
  v = Z.of_nat (undirected_conflicts g chromosome) ∧
  (v = 0 ↔ proper_coloring g chromosome).
Proof.
  intros Hsym Hloop Hv. apply CalculateFitness_returns in Hv.
  pose proof (conflicts_symmetric g chromosome Hsym Hloop) as Heven.
  assert (Hexact : v = Z.of_nat (undirected_conflicts g chromosome)).
  { subst v. f_equal. rewrite Heven, Nat.mul_comm. by apply Nat.div_mul. }
  split; [exact Hexact|]. rewrite proper_iff_no_conflicts. lia.
Qed.

Lemma CalculateFitness_symmetric_storage_witness :
  stored_symmetrically path3 ∧ loop_free path3 ∧
  CalculateFitness path3 [0; 0; 1] = Ok 1 ∧
  1 = Z.of_nat (undirected_conflicts path3 [0; 0; 1]).
Proof.
  assert (Hsym : stored_symmetrically path3).
  { change ([(0, 1); (1, 0); (1, 2); (2, 1)] ≡ₚ [(1, 0); (0, 1); (2, 1); (1, 2)]).
    etrans; [apply Permutation_swap|]. do 2 apply Permutation_skip.
    apply Permutation_swap. }
  assert (Hloop : loop_free path3).
  { intros i Hin. unfold adjacency_pairs, path3 in *. simpl in *.
    repeat (apply elem_of_cons in Hin as [Hin|Hin]; [by simplify_eq|]).
    by apply elem_of_nil in Hin. }
  assert (Hv : CalculateFitness path3 [0; 0; 1] = Ok 1) by reflexivity.
  repeat (split; [assumption|]).
  exact (proj1 (CalculateFitness_symmetric_storage path3 [0; 0; 1] 1 Hsym Hloop Hv)).
Defined.

Lemma CalculateFitness_returns_iff_in_range_witness :
  CalculateFitness (mkGraph [[1]; []; []] [0; 0; 0]) [4; 4] = Ok 0 ∧
  CalculateFitness (mkGraph [[2]; []; []] [0; 0; 0]) [4; 4] = Panic.
Proof.
  split.
  - apply (CalculateFitness_returns_iff_in_range (mkGraph [[1]; []; []] [0; 0; 0]) [4; 4]).
    unfold adjacency_pairs. simpl. constructor; [|constructor].
    split; simpl; by eexists.
  - apply (CalculateFitness_returns_iff_in_range (mkGraph [[2]; []; []] [0; 0; 0]) [4; 4]).
    unfold adjacency_pairs. simpl. intros [[_ [x Hx]] _]%Forall_cons.
    discriminate Hx.
Defined.

(** ** Parent selector, continued *)

(** X6: [SelectParents] panics on an empty population, where
    [rand.Intn(0)] is called; on any other population it returns two members
    of the population after at least 2 and at most 11 draws, and logs
    nothing. *)
Theorem SelectParents_members (population : Population) (w : World) :
  (population = [] → SelectParents population w = Panic) ∧
  (population ≠ [] →
   ∃ p0 p1 k,
     SelectParents population w = Ok ([p0; p1], advance k w) ∧
     (2 ≤ k ≤ 11)%nat ∧ p0 ∈ population ∧ p1 ∈ population).
Proof.
  split.
  - intros ->. reflexivity.
  - intros Hne.
    destruct (SelectParents_run population w Hne)
      as (K & p0 & p1 & Hrun & HK & Hp0 & Hp1 & _).
    exists p0, p1, (S K). split; [done|]. split; [lia|].
    apply lookupZ_Some in Hp0 as [_ Hp0], Hp1 as [_ Hp1].
    split; by eapply list_elem_of_lookup_2.
Qed.

Lemma SelectParents_members_witness :
  SelectParents [] world_zero = Panic ∧
  ∃ p0 p1 k, SelectParents [[1; 2]; [3; 4]] world_zero
               = Ok ([p0; p1], advance k world_zero) ∧ p0 ∈ [[1; 2]; [3; 4]].
Proof.
  split.
  - exact (proj1 (SelectParents_members [] world_zero) eq_refl).
  - destruct (proj2 (SelectParents_members [[1; 2]; [3; 4]] world_zero))
      as (p0 & p1 & k & Hrun & _ & Hp0 & _); [discriminate|].
    by exists p0, p1, k.
Defined.

(** ** Crossover, continued *)

(** The copy loop puts the genes of the chosen parent at the positions they
    had in the parent. *)
Lemma copy_block_positional (parents : list Chromosome) (pidx : Z) :
  ∀ count i res res',
    copy_block count parents pidx (Z.of_nat i) res = Ok res' →
    length res = i →
    (∀ k x, res !! k = Some x → ∃ p, p ∈ parents ∧ p !! k = Some x) →
    length res' = (i + count)%nat ∧
    (∀ k x, res' !! k = Some x → ∃ p, p ∈ parents ∧ p !! k = Some x).
Proof.
  induction count as [|count IH]; intros i res res' Hrun Hlen Hres.
  - simpl in Hrun. simplify_eq. split; [lia|done].
  - cbn [copy_block] in Hrun.
    destruct (index parents pidx) as [parent| |] eqn:Hp; simpl in Hrun; try done.
    destruct (index parent (Z.of_nat i)) as [x| |] eqn:Hx; simpl in Hrun; try done.
    apply index_Ok, lookupZ_Some in Hp as [_ Hp].
    apply index_Ok in Hx. rewrite lookupZ_of_nat in Hx.
    replace (Z.of_nat i + 1) with (Z.of_nat (S i)) in Hrun by lia.
    apply IH in Hrun as [Hlen' Hres'].
    + split; [lia|done].
    + rewrite length_app. simpl. lia.
    + intros k y Hk. unfold Chromosome in *.
      destruct (decide (k < length res)%nat) as [Hlt|Hge].
      * rewrite lookup_app_l in Hk by done. by apply Hres.
      * rewrite lookup_app_r in Hk by lia.
        destruct (k - length res)%nat as [|m] eqn:Hm; simpl in Hk; [|done].
        simplify_eq. assert (k = length res) as -> by lia.
        exists parent. split; [by eapply list_elem_of_lookup_2|done].
Qed.

Lemma crossover_loop_positional (parents : list Chromosome) (L B : Z) :
  0 ≤ B →
  ∀ fuel c res w out w',
    crossover_loop fuel parents L B (Z.of_nat c) res w = Ok (out, w') →
    length res = c →
    (∀ k x, res !! k = Some x → ∃ p, p ∈ parents ∧ p !! k = Some x) →
    ∀ k x, out !! k = Some x → ∃ p, p ∈ parents ∧ p !! k = Some x.
Proof.
  intros HB. induction fuel as [|fuel IH]; intros c res w out w' Hrun Hlen Hres; [done|].
  rewrite crossover_loop_S in Hrun.
  destruct (Z.ltb_spec (Z.of_nat c) L) as [Hlt|Hge].
  - cbn zeta in Hrun.
    apply bind_Ok_inv in Hrun as (pidx & w1 & _ & Hrun).
    apply bind_Ok_inv in Hrun as (res' & w2 & Hcopy & Hrun).
    apply lift_Ok_inv in Hcopy as [Hcopy ->].
    apply (copy_block_positional parents) in Hcopy as [Hlen' Hres']; [|done|done].
    set (next := if L <? Z.of_nat c + B then L else Z.of_nat c + B) in *.
    assert (Hnext : next = Z.of_nat (c + Z.to_nat (next - Z.of_nat c))).
    { subst next. destruct (Z.ltb_spec L (Z.of_nat c + B)); lia. }
    rewrite Hnext in Hrun. exact (IH _ _ _ _ _ Hrun Hlen' Hres').
  - simpl in Hrun. unfold mret, M_ret in Hrun. by simplify_eq.
Qed.

Lemma Crossover_positional fuel (parents : list Chromosome) w out w' :
  Crossover fuel parents w = Ok (out, w') →
  ∀ k x, out !! k = Some x → ∃ p, p ∈ parents ∧ p !! k = Some x.
Proof.
  unfold Crossover. intros Hrun.
  apply bind_Ok_inv in Hrun as (first & w1 & Hfirst & Hrun).
  apply lift_Ok_inv in Hfirst as [Hfirst ->].
  apply bind_Ok_inv in Hrun as (B & w1 & HB & Hrun).
  apply lift_Ok_inv in HB as [HB ->]. unfold int_div in HB.
  destruct (Z.eqb_spec (len parents) 0); [done|]. simplify_eq.
  change 0 with (Z.of_nat 0) in Hrun at 1.
  assert (HB : 0 ≤ len first ÷ len parents).
  { apply Z.quot_pos; unfold len in *; lia. }
  apply (crossover_loop_positional parents _ _ HB _ _ _ _ _ _ Hrun eq_refl).
  intros k x Hk. by destruct k.
Qed.

(** X7: whenever [Crossover] returns, the gene at each position of the
    offspring is the gene that some parent has at the same position;
    crossover never moves a gene to another node and never invents a
    colour. *)
Theorem Crossover_keeps_positions fuel (parents : list Chromosome) w out w' :
  Crossover fuel parents w = Ok (out, w') →
  ∀ k x, out !! k = Some x → ∃ p, p ∈ parents ∧ p !! k = Some x.
Proof. apply Crossover_positional. Qed.

Lemma Crossover_keeps_positions_witness :
  Crossover 6 [five_zeros; five_ones] world_010
    = Ok ([0; 0; 1; 1; 0], advance 3 world_010) ∧
  ∃ p, p ∈ [five_zeros; five_ones] ∧ p !! 2%nat = Some 1.
Proof.
  assert (Hrun : Crossover 6 [five_zeros; five_ones] world_010
                 = Ok ([0; 0; 1; 1; 0], advance 3 world_010)) by reflexivity.
  split; [exact Hrun|].
  exact (Crossover_keeps_positions _ _ _ _ _ Hrun 2%nat 1 eq_refl).
Defined.

(** X8: crossing [P >= 1] copies of one chromosome gives that chromosome
    back, provided it is empty or has at least [P] genes (so that the loop
    ends). *)
Theorem Crossover_identical_parents (P : nat) (p : Chromosome) (w : World) :
  (1 ≤ P)%nat → length p = 0%nat ∨ (P ≤ length p)%nat →
  ∃ k, Crossover (S (length p)) (replicate P p) w = Ok (p, advance k w) ∧
       (k ≤ length p)%nat.
Proof.
  intros HP Hcase.
  assert (Hne : replicate P p ≠ []) by (destruct P; [lia|done]).
  destruct (Crossover_blockwise_run (replicate P p) (length p) (S (length p)) w Hne)
    as (Hrun & Hlen & _).
  - by apply Forall_replicate.
  - by rewrite length_replicate.
  - rewrite length_replicate. destruct Hcase as [->|Hcase].
    + rewrite Nat.Div0.div_0_l. unfold block_count. simpl. lia.
    + assert (1 ≤ length p / P)%nat.
      { apply Nat.div_le_lower_bound; lia. }
      assert (block_count (length p) (length p / P) ≤ length p)%nat; [|lia].
      apply block_count_le; [done|nia].
  - rewrite length_replicate in *.
    set (out := blockwise (length p / P) (length p) (replicate P p) w) in *.
    assert (out = p) as ->.
    { apply list_eq_same_length with (length p); [done|done|].
      intros i x y Hi Hx Hy.
      destruct (Crossover_positional _ _ _ _ _ Hrun i x Hx) as (q & Hq & Hqi).
      apply elem_of_replicate in Hq as [-> _]. assert (Heq : Some x = Some y) by exact (eq_trans (eq_sym Hqi) Hy).
      by injection Heq. }
    eexists. split; [exact Hrun|].
    destruct Hcase as [->|Hcase].
    + rewrite Nat.Div0.div_0_l. unfold block_count. simpl. lia.
    + assert (1 ≤ length p / P)%nat.
      { apply Nat.div_le_lower_bound; lia. }
      apply block_count_le; [done|nia].
Qed.

Lemma Crossover_identical_parents_witness :
  (1 ≤ 2)%nat ∧ (length five_ones = 0%nat ∨ (2 ≤ length five_ones)%nat) ∧
  ∃ k, Crossover (S (length five_ones)) (replicate 2 five_ones) world_010
         = Ok (five_ones, advance k world_010).
Proof.
  assert (H1 : (1 ≤ 2)%nat) by lia.
  assert (H2 : length five_ones = 0%nat ∨ (2 ≤ length five_ones)%nat)
    by (right; simpl; lia).
  split; [exact H1|]. split; [exact H2|].
  destruct (Crossover_identical_parents 2 five_ones world_010 H1 H2) as (k & Hrun & _).
  by exists k.
Defined.

(** X9: [Crossover] never returns when its first parent has at least one
    gene but fewer genes than there are parents: the block width
    [len(parents[0]) / len(parents)] is 0 and the loop index stays at 0,
    whatever the generator draws. *)
Theorem Crossover_fewer_genes_than_parents (first : Chromosome)
    (rest : list Chromosome) :
  (0 < length first < length (first :: rest))%nat →
  ∀ fuel w, Crossover fuel (first :: rest) w = OutOfFuel.
Proof. apply Crossover_short_parents_diverge. Qed.

Lemma Crossover_fewer_genes_than_parents_witness :
  (0 < length [3; 4] < length [[3; 4]; [5; 6]; [7; 8]])%nat ∧
  ∀ fuel w, Crossover fuel [[3; 4]; [5; 6]; [7; 8]] w = OutOfFuel.
Proof.
  assert (Hshort : (0 < length [3; 4] < length [[3; 4]; [5; 6]; [7; 8]])%nat)
    by (simpl; lia).
  split; [exact Hshort|].
  exact (Crossover_fewer_genes_than_parents [3; 4] [[5; 6]; [7; 8]] Hshort).
Defined.

(** ** Population initializer, continued *)

Lemma drawn_genes_S (numColors : Z) (n : nat) (w : World) :
  drawn_genes numColors (S n) w
  = draw w 0 `mod` numColors :: drawn_genes numColors n (advance 1 w).
Proof.
  unfold drawn_genes. rewrite <- cons_seq, fmap_cons. f_equal.
  rewrite <- fmap_S_seq, <- list_fmap_compose. apply list_fmap_ext.
  intros _ j _. cbn [compose]. by rewrite draw_advance.
Qed.

Lemma fill_genes_exact (numColors : Z) (count : nat) :
  count = 0%nat ∨ 1 ≤ numColors →
  ∀ j chr w, (j + count ≤ length chr)%nat →
    fill_genes count numColors (Z.of_nat j) chr w
    = Ok (take j chr ++ drawn_genes numColors count w ++ drop (j + count) chr,
          advance count w).
Proof.
  intros [->|Hcolors].
  { intros j chr w _. simpl. unfold mret, M_ret.
    by rewrite advance_0, Nat.add_0_r, take_drop. }
  induction count as [|count IH]; intros j chr w Hlen.
  - simpl. unfold mret, M_ret. by rewrite advance_0, Nat.add_0_r, take_drop.
  - cbn [fill_genes].
    rewrite (bind_Ok _ _ _ _ _ (Intn_pos numColors w ltac:(lia))).
    erewrite (bind_Ok (lift _)); cycle 1.
    { apply lift_Ok, store_in_range. lia. }
    replace (Z.of_nat j + 1) with (Z.of_nat (S j)) by lia.
    rewrite IH by (rewrite length_insert; lia).
    rewrite advance_advance, drawn_genes_S.
    rewrite (take_S_r _ _ (draw w 0 `mod` numColors))
      by (apply list_lookup_insert_eq; lia).
    rewrite take_insert_ge, drop_insert_lt by lia.
    rewrite <- app_assoc. simpl.
    by replace (S (j + count))%nat with (j + S count)%nat by lia.
Qed.

Lemma drawn_population_S (numColors : Z) (n size : nat) (w : World) :
  drawn_population numColors n (S size) w
  = drawn_genes numColors n w :: drawn_population numColors n size (advance n w).
Proof.
  unfold drawn_population. rewrite <- cons_seq, fmap_cons. simpl.
  rewrite advance_0. f_equal.
  rewrite <- fmap_S_seq, <- list_fmap_compose. apply list_fmap_ext.
  intros _ i _. cbn [compose]. by rewrite advance_advance.
Qed.

Lemma fill_population_exact (solver : GraphColoringSolver) (count : nat) :
  let n := Z.to_nat (NodeCount (SolverGraph solver)) in
  count = 0%nat ∨ n = 0%nat ∨ 1 ≤ NumColors solver →
  ∀ i pop w, (i + count ≤ length pop)%nat →
    fill_population count solver (Z.of_nat i) pop w
    = Ok (take i pop ++ drawn_population (NumColors solver) n count w
                     ++ drop (i + count) pop,
          advance (count * n) w).
Proof.
  intros n Hcase. induction count as [|count IH]; intros i pop w Hlen.
  - simpl. unfold mret, M_ret. by rewrite advance_0, Nat.add_0_r, take_drop.
  - cbn [fill_population]. cbn zeta.
    assert (Hnodes : 0 ≤ NodeCount (SolverGraph solver)) by (unfold NodeCount, len; lia).
    erewrite (bind_Ok (lift _)); cycle 1.
    { apply lift_Ok. unfold make.
      destruct (Z.ltb_spec (NodeCount (SolverGraph solver)) 0); [lia|done]. }
    fold n. change 0 with (Z.of_nat 0) at 1.
    rewrite (bind_Ok _ _ _ _ _
               (fill_genes_exact (NumColors solver) n ltac:(lia) 0 (replicate n 0) w
                  ltac:(rewrite length_replicate; lia))).
    rewrite take_0, drop_replicate, Nat.sub_diag.
    change (replicate 0 0) with (@nil Z). rewrite app_nil_r, app_nil_l.
    erewrite (bind_Ok (lift _)); cycle 1.
    { apply lift_Ok, store_in_range. lia. }
    replace (Z.of_nat i + 1) with (Z.of_nat (S i)) by lia.
    rewrite IH by (rewrite ?length_insert; lia).
    rewrite advance_advance, drawn_population_S.
    rewrite (take_S_r _ _ (drawn_genes (NumColors solver) n w))
      by (apply list_lookup_insert_eq; lia).
    rewrite take_insert_ge, drop_insert_lt by lia.
    rewrite <- app_assoc. cbn [app].
    replace (S i + count)%nat with (i + S count)%nat by lia.
    by replace (n + count * n)%nat with (S count * n)%nat by lia.
Qed.

Lemma RandomPopulation_exact (solver : GraphColoringSolver) (size : Z) (w : World) :
  let n := Z.to_nat (NodeCount (SolverGraph solver)) in
  0 ≤ size → size = 0 ∨ n = 0%nat ∨ 1 ≤ NumColors solver →
  RandomPopulation solver size w
  = Ok (drawn_population (NumColors solver) n (Z.to_nat size) w,
        advance (Z.to_nat size * n) w).
Proof.
  intros n Hsize Hcase. unfold RandomPopulation.
  erewrite (bind_Ok (lift _)); cycle 1.
  { apply lift_Ok. unfold make. destruct (Z.ltb_spec size 0); [lia|done]. }
  change 0 with (Z.of_nat 0) at 1.
  rewrite (fill_population_exact solver (Z.to_nat size) ltac:(fold n; lia) 0)
    by (rewrite length_replicate; lia).
  fold n. by rewrite take_0, drop_replicate, Nat.sub_diag, app_nil_r.
Qed.

(** X10: for [size >= 0] and, unless there is nothing to draw,
    [numColors >= 1], [RandomPopulation] returns [size] chromosomes whose
    genes are, one after the other, the next [size * nodeCount] draws of
    [rand.Intn(numColors)].  It panics on a negative size, and on
    [numColors <= 0] as soon as there is a gene to draw. *)
Theorem RandomPopulation_draws (solver : GraphColoringSolver) (size : Z) (w : World) :
  let n := Z.to_nat (NodeCount (SolverGraph solver)) in
  (0 ≤ size → size = 0 ∨ n = 0%nat ∨ 1 ≤ NumColors solver →
   RandomPopulation solver size w
   = Ok (drawn_population (NumColors solver) n (Z.to_nat size) w,
         advance (Z.to_nat size * n) w)) ∧
  (size < 0 ∨ (0 < size ∧ (0 < n)%nat ∧ NumColors solver ≤ 0) →
   RandomPopulation solver size w = Panic).
Proof.
  intros n. split; [apply RandomPopulation_exact|].
  intros [Hneg|(Hsize & Hn & Hcolors)]; unfold RandomPopulation.
  - apply bind_Panic. unfold make. by destruct (Z.ltb_spec size 0); [|lia].
  - erewrite (bind_Ok (lift _)); cycle 1.
    { apply lift_Ok. unfold make. destruct (Z.ltb_spec size 0); [lia|done]. }
    destruct (Z.to_nat size) as [|count] eqn:Hcount; [lia|].
    cbn [fill_population]. cbn zeta.
    erewrite (bind_Ok (lift _)); cycle 1.
    { apply lift_Ok. unfold make.
      destruct (Z.ltb_spec (NodeCount (SolverGraph solver)) 0); [lia|done]. }
    apply bind_Panic. fold n. destruct n as [|m]; [lia|].
    cbn [fill_genes]. apply bind_Panic. by apply Intn_nonpos.
Qed.

Lemma RandomPopulation_draws_witness :
  RandomPopulation (NewGraphColoringSolver triangle 3) 2 world_7k3
    = Ok ([[0; 1; 2]; [0; 1; 2]], advance 6 world_7k3) ∧
  RandomPopulation (NewGraphColoringSolver triangle 0) 2 world_7k3 = Panic.
Proof.
  split.
  - apply (RandomPopulation_draws (NewGraphColoringSolver triangle 3) 2 world_7k3).
    + lia.
    + right. right. simpl. lia.
  - apply (RandomPopulation_draws (NewGraphColoringSolver triangle 0) 2 world_7k3).
    right. split; [lia|]. split; [vm_compute; lia|simpl; lia].
Defined.

(** ** Mutation, continued *)

Section MutateFrame.
Context `{GoLib}.

Lemma mutate_loop_frame (numColors n : Z) :
  ∀ count i child w child' w',
    mutate_loop count numColors n i child w = Ok (child', w') →
    length child' = length child ∧
    (∀ k x, child' !! k = Some x → child !! k = Some x ∨ 0 ≤ x < numColors) ∧
    tape w' = tape w ∧ logged w' = logged w ∧
    (cursor w + count ≤ cursor w' ≤ cursor w + 2 * count)%nat.
Proof.
  induction count as [|count IH]; intros i child w child' w' Hrun.
  - simpl in Hrun. unfold mret, M_ret in Hrun. simplify_eq.
    repeat split; auto; lia.
  - cbn [mutate_loop] in Hrun.
    apply bind_Ok_inv in Hrun as (hit & w1 & Hhit & Hrun).
    unfold Float32_below_recip in Hhit. injection Hhit as <- <-.
    apply bind_Ok_inv in Hrun as (child1 & w2 & Hstep & Hrun).
    apply IH in Hrun as (Hlen & Hgenes & Htape & Hlog & Hcursor).
    destruct (Float32_lt_recip (draw w 0) n).
    + apply bind_Ok_inv in Hstep as (v & w3 & Hv & Hstore).
      unfold Intn in Hv. destruct (Z.leb_spec numColors 0) as [|Hpos]; [done|].
      injection Hv as <- <-.
      apply lift_Ok_inv in Hstore as [Hstore ->]. unfold store in Hstore.
      destruct ((0 <=? i) && (i <? len child)); [|done]. injection Hstore as <-.
      rewrite length_insert in Hlen. split; [done|]. split.
      * intros k x Hk. destruct (Hgenes k x Hk) as [Hk1|?]; [|by right].
        apply list_lookup_insert_Some in Hk1 as [(_ & <- & _)|[_ Hk1]]; [|by left].
        right. apply Z.mod_pos_bound. lia.
      * simpl in *. repeat split; try done; lia.
    + unfold mret, M_ret in Hstep. injection Hstep as <- <-.
      split; [done|]. split; [done|]. simpl in *. repeat split; try done; lia.
Qed.

(** X11: whenever [Mutate] returns, the chromosome has kept its length,
    every gene is either unchanged or a colour index of [[0, numColors)],
    between one and two draws were made per gene, and nothing was logged;
    with [numColors <= 0] a returned chromosome is the input unchanged. *)
Theorem Mutate_frame (solver : GraphColoringSolver) (child child' : Chromosome)
    (w w' : World) :
  Mutate solver child w = Ok (child', w') →
  length child' = length child ∧
  (∀ k x, child' !! k = Some x →
          child !! k = Some x ∨ 0 ≤ x < NumColors solver) ∧
  (cursor w + length child ≤ cursor w' ≤ cursor w + 2 * length child)%nat ∧
  logged w' = logged w ∧
  (NumColors solver ≤ 0 → child' = child).
Proof.
  unfold Mutate. intros Hrun.
  apply mutate_loop_frame in Hrun as (Hlen & Hgenes & _ & Hlog & Hcursor).
  repeat (split; [done|]).
  intros Hcolors. apply list_eq_same_length with (length child); [done|done|].
  intros k x y _ Hx Hy. destruct (Hgenes k x Hx) as [Hk|Hk]; [|lia].
  assert (Heq : Some x = Some y) by exact (eq_trans (eq_sym Hk) Hy).
  by injection Heq.
Qed.

End MutateFrame.

Lemma Mutate_frame_witness :
  Mutate (H := reference_lib) (NewGraphColoringSolver triangle 3) [2; 1; 2] world_zero
    = Ok ([0; 0; 0], advance 6 world_zero) ∧
  length [0; 0; 0] = length [2; 1; 2].
Proof.
  assert (Hrun : Mutate (H := reference_lib) (NewGraphColoringSolver triangle 3)
                   [2; 1; 2] world_zero = Ok ([0; 0; 0], advance 6 world_zero))
    by reflexivity.
  split; [exact Hrun|].
  exact (proj1 (Mutate_frame (H := reference_lib) _ _ _ _ _ Hrun)).
Defined.

(** ** Evolutionary loop, continued *)

Global Instance score_le_trans : Transitive score_le.
Proof. intros a b c. unfold score_le. lia. Qed.

Lemma sorted_scores_best_first (solver : GraphColoringSolver)
    (scs : list scoredChromosome) :
  StronglySorted score_le scs → Forall (scored_correctly solver) scs →
  best_first (SolverGraph solver) (chromosome <$> scs).
Proof.
  unfold best_first. induction 1 as [|a l Hsorted IH Hall]; intros Hgood.
  - constructor.
  - apply Forall_cons in Hgood as [[_ Ha] Hgood]. rewrite fmap_cons.
    constructor; [by apply IH|].
    apply Forall_fmap, Forall_forall. intros b Hb. simpl.
    rewrite Forall_forall in Hall, Hgood.
    destruct (Hgood b Hb) as [_ Hscore].
    exists (score a), (score b). split; [done|]. split; [done|]. by apply Hall.
Qed.

(** The replacement loop overwrites [count] entries from [i] on with the
    chromosomes of the offspring at the same indices. *)
Lemma replace_population_exact (scored : list scoredChromosome) :
  ∀ count i population,
    (i + count ≤ length scored)%nat → (i + count ≤ length population)%nat →
    replace_population count (Z.of_nat i) scored population
    = Ok (take i population ++ (chromosome <$> take count (drop i scored))
            ++ drop (i + count) population).
Proof.
  induction count as [|count IH]; intros i population Hscored Hpop.
  - simpl. by rewrite Nat.add_0_r, take_drop.
  - cbn [replace_population].
    destruct (lookup_lt_is_Some_2 scored i) as [sc Hsc]; [lia|].
    rewrite (index_of_nat _ _ _ Hsc). simpl.
    rewrite store_in_range by lia. simpl.
    replace (Z.of_nat i + 1) with (Z.of_nat (S i)) by lia.
    rewrite IH by (rewrite ?length_insert; lia).
    rewrite (take_S_r _ _ (chromosome sc)) by (apply list_lookup_insert_eq; lia).
    rewrite take_insert_ge, drop_insert_lt by lia.
    rewrite (drop_S _ _ _ Hsc). cbn [take]. rewrite fmap_cons, <- app_assoc.
    cbn [app]. by replace (S i + count)%nat with (i + S count)%nat by lia.
Qed.

Section SolveTotal.
Context `{GoLib}.
Variables (solver : GraphColoringSolver) (fuel : nat) (popSize : Z).
Hypothesis graph_ok : graph_wf (SolverGraph solver).
Hypothesis sizes_ok :
  NodeCount (SolverGraph solver) = 0 ∨
  (2 ≤ NodeCount (SolverGraph solver) ∧ 1 ≤ NumColors solver).
Hypothesis fuel_ok : (Z.to_nat (NodeCount (SolverGraph solver)) < fuel)%nat.
Hypothesis popSize_ok : 1 ≤ popSize.

(** Every offspring is produced and recorded with its fitness. *)
Lemma make_children_scored (population : Population) :
  population ≠ [] → Forall (valid_chromosome solver) population →
  ∀ count scored w, Forall (scored_correctly solver) scored →
    ∃ scored' w',
      make_children count fuel solver population scored w = Ok (scored', w') ∧
      length scored' = (length scored + count)%nat ∧
      Forall (scored_correctly solver) scored'.
Proof.
  intros Hne Hpop. induction count as [|count IH]; intros scored w Hscored.
  - exists scored, w. simpl. by rewrite Nat.add_0_r.
  - cbn [make_children].
    destruct (SelectParents_valid solver population w Hne Hpop)
      as (p0 & p1 & w1 & Hsel & _ & Hp0 & Hp1).
    rewrite (bind_Ok _ _ _ _ _ Hsel).
    destruct (Crossover_two_valid solver p0 p1 fuel w1 Hp0 Hp1 ltac:(lia) fuel_ok)
      as (child & w2 & Hcross & _ & Hchild).
    rewrite (bind_Ok _ _ _ _ _ Hcross).
    destruct (Mutate_valid solver child w2 ltac:(lia) Hchild)
      as (mutated & w3 & Hmut & _ & Hmutated).
    rewrite (bind_Ok _ _ _ _ _ Hmut).
    destruct (CalculateFitness_total (SolverGraph solver) mutated
                (proj1 Hmutated) graph_ok) as [v Hv].
    erewrite (bind_Ok (lift _)); [|apply lift_Ok, Hv].
    destruct (IH (scored ++ [mkScored mutated v]) w3)
      as (scored' & w' & Hrun & Hlen & Hgood).
    { apply Forall_app. split; [done|]. by apply Forall_singleton. }
    exists scored', w'. rewrite Hrun. rewrite length_app in Hlen. simpl in Hlen.
    split; [done|]. split; [lia|done].
Qed.

(** The generation loop always returns, keeps [popSize] valid chromosomes,
    and leaves them ordered by fitness once a generation has run. *)
Lemma solve_loop_total :
  ∀ remaining iteration population w,
    len population = popSize → Forall (valid_chromosome solver) population →
    ∃ population' w',
      solve_loop remaining iteration fuel solver popSize population w
        = Ok (population', w') ∧
      len population' = popSize ∧
      Forall (valid_chromosome solver) population' ∧
      (remaining ≠ 0%nat ∨ best_first (SolverGraph solver) population →
       best_first (SolverGraph solver) population').
Proof.
  induction remaining as [|remaining IH]; intros iteration population w Hlen Hpop.
  - exists population, w. split; [done|]. split; [done|]. split; [done|].
    by intros [?|?].
  - assert (Hne : population ≠ []).
    { intros ->. unfold len in Hlen. simpl in Hlen. lia. }
    destruct (make_children_scored population Hne Hpop (Z.to_nat (2 * popSize)) [] w
                ltac:(constructor)) as (scored & w1 & Hchildren & Hcount & Hgood).
    simpl in Hcount.
    assert (Hsorted_good : Forall (scored_correctly solver) (sort_Slice scored)).
    { by rewrite (sort_Slice_perm scored). }
    assert (Hsorted_len : length (sort_Slice scored) = Z.to_nat (2 * popSize)).
    { by rewrite (Permutation_length (sort_Slice_perm scored)). }
    assert (Hsorted : StronglySorted score_le (sort_Slice scored)).
    { apply Sorted_StronglySorted; [apply _|]. apply sort_Slice_sorted. }
    set (population' := chromosome <$> take (Z.to_nat popSize) (sort_Slice scored)).
    assert (Hreplace : replace_population (Z.to_nat popSize) 0 (sort_Slice scored)
                         population = Ok population').
    { change 0 with (Z.of_nat 0).
      rewrite replace_population_exact by (unfold len in Hlen; lia).
      rewrite take_0, drop_0, drop_ge by (unfold len in Hlen; lia).
      by rewrite app_nil_r. }
    assert (Hlen' : len population' = popSize).
    { unfold population', len. rewrite length_fmap, length_take. lia. }
    assert (Hvalid' : Forall (valid_chromosome solver) population').
    { apply Forall_fmap. apply Forall_take.
      eapply Forall_impl; [exact Hsorted_good|]. by intros sc [? _]. }
    assert (Hbest' : best_first (SolverGraph solver) population').
    { apply sorted_scores_best_first; [|by apply Forall_take].
      rewrite <- (take_drop (Z.to_nat popSize) (sort_Slice scored)) in Hsorted.
      by apply StronglySorted_app_1_l in Hsorted. }
    destruct (lookup_lt_is_Some_2 (sort_Slice scored) 0) as [best Hbest]; [lia|].
    cbn [solve_loop]. cbn zeta.
    rewrite (bind_Ok _ _ _ _ _ Hchildren).
    erewrite (bind_Ok (lift _)); [|apply lift_Ok, Hreplace].
    erewrite (bind_Ok (lift _)); [|apply lift_Ok, (index_of_nat _ 0 _ Hbest)].
    set (w2 := if Z.rem iteration 100 =? 0
               then mkWorld (tape w1) (cursor w1) (logged w1 ++ [(iteration, score best)])
               else w1).
    erewrite (bind_Ok _ _ _ tt w2); cycle 1.
    { unfold w2. by destruct (Z.rem iteration 100 =? 0). }
    destruct (score best =? 0).
    + exists population', w2. by repeat split.
    + destruct (IH (iteration + 1) population' w2 Hlen' Hvalid')
        as (final & w' & Hrun & Hlenf & Hvalidf & Hbestf).
      exists final, w'. repeat (split; [done|]). intros _. apply Hbestf. by right.
Qed.

End SolveTotal.

Section SolveOutcomes.
Context `{GoLib}.

(** X12: on a graph whose adjacency entries are node indices and whose node
    count is 0 or at least 2, with [numColors >= 1] (when there are nodes)
    and [popSize >= 1], [Solve] returns for every iteration budget and every
    behaviour of the generator: the colouring has one valid colour per node
    and the score is half its number of equal-coloured stored pairs. *)
Theorem Solve_always_returns (fuel : nat) (solver : GraphColoringSolver)
    (numIterations popSize : Z) (w : World) :
  graph_wf (SolverGraph solver) →
  NodeCount (SolverGraph solver) = 0 ∨
    (2 ≤ NodeCount (SolverGraph solver) ∧ 1 ≤ NumColors solver) →
  (Z.to_nat (NodeCount (SolverGraph solver)) < fuel)%nat →
  1 ≤ popSize →
  ∃ solution w',
    Solve fuel solver numIterations popSize w = Ok (solution, w') ∧
    valid_chromosome solver (Coloring solution) ∧
    Score solution
      = Z.of_nat (conflicts (SolverGraph solver) (Coloring solution) / 2).
Proof.
  intros Hwf Hsizes Hfuel Hpop.
  destruct (RandomPopulation_valid solver popSize w ltac:(lia) ltac:(lia))
    as (initial & w0 & Hinit & Hlen & _ & Hvalid).
  destruct (solve_loop_total solver fuel popSize Hwf Hsizes Hfuel Hpop
              (Z.to_nat numIterations) 0 initial w0 Hlen Hvalid)
    as (final & w' & Hloop & Hlen' & Hvalid' & _).
  destruct (lookup_lt_is_Some_2 final 0) as [best Hbest].
  { unfold len in Hlen'. lia. }
  assert (Hbest_valid : valid_chromosome solver best).
  { by apply (Forall_lookup_1 _ _ _ _ Hvalid' Hbest). }
  destruct (CalculateFitness_total (SolverGraph solver) best (proj1 Hbest_valid) Hwf)
    as [v Hv].
  exists (mkSolution best v), w'. unfold Solve.
  rewrite (bind_Ok _ _ _ _ _ Hinit). rewrite (bind_Ok _ _ _ _ _ Hloop).
  erewrite (bind_Ok (lift _)); [|apply lift_Ok, (index_of_nat _ 0 _ Hbest)].
  erewrite (bind_Ok (lift _)); [|apply lift_Ok, Hv].
  split; [done|]. split; [done|]. by apply CalculateFitness_returns.
Qed.

(** X13: under the same conditions and with at least one iteration, the
    population that the generation loop ends with has [popSize] members and
    the score that [Solve] returns is the least fitness among them. *)
Theorem Solve_returns_best_of_population (fuel : nat) (solver : GraphColoringSolver)
    (numIterations popSize : Z) (w : World) :
  graph_wf (SolverGraph solver) →
  NodeCount (SolverGraph solver) = 0 ∨
    (2 ≤ NodeCount (SolverGraph solver) ∧ 1 ≤ NumColors solver) →
  (Z.to_nat (NodeCount (SolverGraph solver)) < fuel)%nat →
  1 ≤ popSize → 1 ≤ numIterations →
  ∃ initial w0 final solution w',
    RandomPopulation solver popSize w = Ok (initial, w0) ∧
    solve_loop (Z.to_nat numIterations) 0 fuel solver popSize initial w0
      = Ok (final, w') ∧
    Solve fuel solver numIterations popSize w = Ok (solution, w') ∧
    len final = popSize ∧
    final !! 0%nat = Some (Coloring solution) ∧
    ∀ c, c ∈ final →
         ∃ v, CalculateFitness (SolverGraph solver) c = Ok v ∧ Score solution ≤ v.
Proof.
  intros Hwf Hsizes Hfuel Hpop Hiter.
  destruct (RandomPopulation_valid solver popSize w ltac:(lia) ltac:(lia))
    as (initial & w0 & Hinit & Hlen & _ & Hvalid).
  destruct (solve_loop_total solver fuel popSize Hwf Hsizes Hfuel Hpop
              (Z.to_nat numIterations) 0 initial w0 Hlen Hvalid)
    as (final & w' & Hloop & Hlen' & Hvalid' & Hbest).
  assert (Hsorted : best_first (SolverGraph solver) final) by (apply Hbest; left; lia).
  destruct final as [|best rest]; [unfold len in Hlen'; simpl in Hlen'; lia|].
  apply Forall_cons in Hvalid' as [Hbest_valid _].
  destruct (CalculateFitness_total (SolverGraph solver) best (proj1 Hbest_valid) Hwf)
    as [v Hv].
  exists initial, w0, (best :: rest), (mkSolution best v), w'.
  split; [done|]. split; [done|]. split; [|split; [done|split; [done|]]].
  - unfold Solve.
    rewrite (bind_Ok _ _ _ _ _ Hinit). rewrite (bind_Ok _ _ _ _ _ Hloop).
    erewrite (bind_Ok (lift _)); [|reflexivity].
    by erewrite (bind_Ok (lift _)); [|apply lift_Ok, Hv].
  - intros c [->|Hc]%elem_of_cons; simpl.
    + exists v. split; [done|lia].
    + apply StronglySorted_inv in Hsorted as [_ Hall].
      rewrite Forall_forall in Hall.
      destruct (Hall c Hc) as (va & vb & Hva & Hvb & Hle).
      exists vb. split; [done|]. congruence.
Qed.

(** X14: with [popSize <= 0], [Solve] panics whatever the graph, the
    iteration budget and the generator: on a negative size in [make], on
    size 0 at [scoredPopulation[0]] or [population[0]]. *)
Theorem Solve_needs_population (fuel : nat) (solver : GraphColoringSolver)
    (numIterations popSize : Z) (w : World) :
  popSize ≤ 0 → Solve fuel solver numIterations popSize w = Panic.
Proof.
  intros Hpop. unfold Solve.
  destruct (decide (popSize < 0)) as [Hneg|Hzero].
  - apply bind_Panic. apply bind_Panic. unfold make.
    by destruct (Z.ltb_spec popSize 0); [|lia].
  - assert (popSize = 0) as -> by lia.
    rewrite (bind_Ok _ _ _ _ _
               (RandomPopulation_exact solver 0 w ltac:(lia) ltac:(by left))).
    change (Z.to_nat 0) with 0%nat. cbn [drawn_population seq fmap list_fmap].
    destruct (Z.to_nat numIterations) as [|remaining].
    + erewrite bind_Ok; [|reflexivity]. by apply bind_Panic.
    + apply bind_Panic. cbn [solve_loop]. cbn zeta.
      change (Z.to_nat (2 * 0)) with 0%nat. cbn [make_children].
      erewrite bind_Ok; [|reflexivity].
      assert (Hnil : sort_Slice [] = []).
      { apply Permutation_nil_r. apply sort_Slice_perm. }
      rewrite Hnil. erewrite (bind_Ok (lift _)); [|reflexivity].
      by apply bind_Panic.
Qed.

(** X15: on a graph of exactly one node, with [numColors >= 1],
    [popSize >= 1] and at least one iteration, [Solve] never returns: the
    first [Crossover] of two one-gene parents loops for ever. *)
Theorem Solve_one_node_diverges (fuel : nat) (solver : GraphColoringSolver)
    (numIterations popSize : Z) (w : World) :
  NodeCount (SolverGraph solver) = 1 → 1 ≤ NumColors solver →
  1 ≤ popSize → 1 ≤ numIterations →
  Solve fuel solver numIterations popSize w = OutOfFuel.
Proof.
  intros Hnode Hcolors Hpop Hiter. unfold Solve.
  destruct (RandomPopulation_valid solver popSize w ltac:(lia) ltac:(lia))
    as (initial & w0 & Hinit & Hlen & _ & Hvalid).
  rewrite (bind_Ok _ _ _ _ _ Hinit). apply bind_OutOfFuel.
  destruct (Z.to_nat numIterations) as [|remaining] eqn:Hremaining; [lia|].
  cbn [solve_loop]. cbn zeta. apply bind_OutOfFuel.
  destruct (Z.to_nat (2 * popSize)) as [|count] eqn:Hcount; [lia|].
  cbn [make_children].
  assert (Hne : initial ≠ []).
  { intros ->. unfold len in Hlen. simpl in Hlen. lia. }
  destruct (SelectParents_valid solver initial w0 Hne Hvalid)
    as (p0 & p1 & w1 & Hsel & _ & [Hp0 _] & _).
  rewrite (bind_Ok _ _ _ _ _ Hsel). apply bind_OutOfFuel.
  apply Crossover_short_parents_diverge. unfold len in Hp0. simpl. lia.
Qed.

(** X16: with no iteration to run ([numIterations <= 0]), [Solve] returns
    the first chromosome of the random population, that is the first
    [nodeCount] draws of the generator, with its fitness; the whole
    population is still drawn and nothing is logged. *)
Theorem Solve_without_iterations (fuel : nat) (solver : GraphColoringSolver)
    (numIterations popSize : Z) (w : World) :
  let n := Z.to_nat (NodeCount (SolverGraph solver)) in
  graph_wf (SolverGraph solver) →
  n = 0%nat ∨ 1 ≤ NumColors solver →
  1 ≤ popSize → numIterations ≤ 0 →
  ∃ v,
    Solve fuel solver numIterations popSize w
      = Ok (mkSolution (drawn_genes (NumColors solver) n w) v,
            advance (Z.to_nat popSize * n) w) ∧
    CalculateFitness (SolverGraph solver) (drawn_genes (NumColors solver) n w) = Ok v.
Proof.
  intros n Hwf Hcolors Hpop Hiter. unfold Solve.
  rewrite (bind_Ok _ _ _ _ _
             (RandomPopulation_exact solver popSize w ltac:(lia) ltac:(fold n; tauto))).
  fold n. replace (Z.to_nat numIterations) with 0%nat by lia.
  destruct (Z.to_nat popSize) as [|size] eqn:Hsize; [lia|].
  rewrite drawn_population_S.
  destruct (CalculateFitness_total (SolverGraph solver)
              (drawn_genes (NumColors solver) n w)) as [v Hv]; [|done|].
  { unfold drawn_genes, len. rewrite length_fmap, length_seq.
    unfold n, NodeCount, len. lia. }
  exists v. split; [|done].
  erewrite bind_Ok; [|reflexivity].
  erewrite (bind_Ok (lift _)); [|reflexivity].
  by erewrite (bind_Ok (lift _)); [|apply lift_Ok, Hv].
Qed.

End SolveOutcomes.

Lemma Solve_always_returns_witness :
  graph_wf triangle ∧
  (NodeCount triangle = 0 ∨ (2 ≤ NodeCount triangle ∧ 1 ≤ 3)) ∧
  (Z.to_nat (NodeCount triangle) < 10)%nat ∧ 1 ≤ 4 ∧
  ∃ solution w',
    Solve (H := reference_lib) 10 (NewGraphColoringSolver triangle 3) 5 4 world_7k3
      = Ok (solution, w') ∧
    valid_chromosome (NewGraphColoringSolver triangle 3) (Coloring solution).
Proof.
  assert (H1 : graph_wf triangle).
  { unfold graph_wf, triangle, NodeCount, len. simpl.
    repeat (constructor; try lia). }
  assert (H2 : NodeCount triangle = 0 ∨ (2 ≤ NodeCount triangle ∧ 1 ≤ 3)).
  { right. vm_compute. split; discriminate. }
  assert (H3 : (Z.to_nat (NodeCount triangle) < 10)%nat) by (vm_compute; lia).
  assert (H4 : 1 ≤ 4) by lia.
  repeat (split; [assumption|]).
  destruct (Solve_always_returns (H := reference_lib) 10
              (NewGraphColoringSolver triangle 3) 5 4 world_7k3 H1 H2 H3 H4)
    as (solution & w' & Hrun & Hvalid & _).
  exists solution, w'. split; [exact Hrun|exact Hvalid].
Defined.

Lemma Solve_returns_best_of_population_witness :
  graph_wf triangle ∧
  (NodeCount triangle = 0 ∨ (2 ≤ NodeCount triangle ∧ 1 ≤ 2)) ∧
  (Z.to_nat (NodeCount triangle) < 10)%nat ∧ 1 ≤ 2 ∧ 1 ≤ 3 ∧
  ∃ final solution w',
    Solve (H := reference_lib) 10 (NewGraphColoringSolver triangle 2) 3 2 world_7k3
      = Ok (solution, w') ∧
    len final = 2 ∧
    ∀ c, c ∈ final → ∃ v, CalculateFitness triangle c = Ok v ∧ Score solution ≤ v.
Proof.
  assert (H1 : graph_wf triangle).
  { unfold graph_wf, triangle, NodeCount, len. simpl.
    repeat (constructor; try lia). }
  assert (H2 : NodeCount triangle = 0 ∨ (2 ≤ NodeCount triangle ∧ 1 ≤ 2)).
  { right. vm_compute. split; discriminate. }
  assert (H3 : (Z.to_nat (NodeCount triangle) < 10)%nat) by (vm_compute; lia).
  assert (H4 : 1 ≤ 2) by lia.
  assert (H5 : 1 ≤ 3) by lia.
  repeat (split; [assumption|]).
  destruct (Solve_returns_best_of_population (H := reference_lib) 10
              (NewGraphColoringSolver triangle 2) 3 2 world_7k3 H1 H2 H3 H4 H5)
    as (initial & w0 & final & solution & w' & _ & _ & Hrun & Hlen & _ & Hbest).
  exists final, solution, w'. split; [exact Hrun|]. split; [exact Hlen|exact Hbest].
Defined.

Lemma Solve_needs_population_witness :
  0 ≤ 0 ∧
  Solve (H := reference_lib) 10 (NewGraphColoringSolver triangle 3) 5 0 world_7k3 = Panic.
Proof.
  assert (Hpop : 0 ≤ 0) by lia.
  split; [exact Hpop|].
  exact (Solve_needs_population (H := reference_lib) 10 _ 5 0 world_7k3 Hpop).
Defined.

Lemma Solve_one_node_diverges_witness :
  NodeCount one_node = 1 ∧ 1 ≤ 2 ∧ 1 ≤ 3 ∧ 1 ≤ 4 ∧
  Solve (H := reference_lib) 1000 (NewGraphColoringSolver one_node 2) 4 3 world_7k3
    = OutOfFuel.
Proof.
  assert (H1 : NodeCount one_node = 1) by reflexivity.
  assert (H2 : 1 ≤ 2) by lia.
  assert (H3 : 1 ≤ 3) by lia.
  assert (H4 : 1 ≤ 4) by lia.
  repeat (split; [assumption|]).
  exact (Solve_one_node_diverges (H := reference_lib) 1000
           (NewGraphColoringSolver one_node 2) 4 3 world_7k3 H1 H2 H3 H4).
Defined.

Lemma Solve_without_iterations_witness :
  graph_wf triangle ∧ 1 ≤ 3 ∧ 1 ≤ 4 ∧ 0 ≤ 0 ∧
  ∃ v,
    Solve (H := reference_lib) 10 (NewGraphColoringSolver triangle 3) 0 4 world_7k3
      = Ok (mkSolution [0; 1; 2] v, advance 12 world_7k3).
Proof.
  assert (H1 : graph_wf triangle).
  { unfold graph_wf, triangle, NodeCount, len. simpl.
    repeat (constructor; try lia). }
  assert (H2 : 1 ≤ 3) by lia.
  assert (H3 : 1 ≤ 4) by lia.
  assert (H4 : 0 ≤ 0) by lia.
  repeat (split; [assumption|]).
  destruct (Solve_without_iterations (H := reference_lib) 10
              (NewGraphColoringSolver triangle 3) 0 4 world_7k3 H1 (or_intror H2) H3 H4)
    as (v & Hrun & _).
  exists v. exact Hrun.
Defined.

(** ** Graph loading, continued *)

(** The dispatch of [LoadGraph] on the first byte of a non-empty line. *)
Lemma load_lines_cons (c : ascii) (s : string) (rest : list string) (g : Graph) :
  load_lines (String c s :: rest) g =
  if decide (c = "c"%char) then load_lines rest g
  else if decide (c = "p"%char) then
    tok ← index (Split (String c s) " "%char) 2;
    match ParseInt tok with
    | inr err => Ok (inr err)
    | inl nodeCount =>
        adj ← make [] nodeCount;
        colors ← make 0 nodeCount;
        load_lines rest (mkGraph adj colors)
    end
  else if decide (c = "e"%char) then
    tok1 ← index (Split (String c s) " "%char) 1;
    match ParseInt tok1 with
    | inr err => Ok (inr err)
    | inl first =>
        tok2 ← index (Split (String c s) " "%char) 2;
        match ParseInt tok2 with
        | inr err => Ok (inr err)
        | inl second =>
            row ← index (AdjecencyList g) (first - 1);
            adj ← store (AdjecencyList g) (first - 1) (row ++ [second - 1]);
            load_lines rest (mkGraph adj (Colors g))
        end
    end
  else load_lines rest g.
Proof.
  destruct c as [[] [] [] [] [] [] [] []]; reflexivity.
Qed.

Lemma index_cases {A} (l : list A) (i : Z) :
  index l i = Panic ∨ ∃ x, index l i = Ok x.
Proof. unfold index. destruct (lookupZ l i); eauto. Qed.

Lemma store_Ok_inv {A} (l l' : list A) (i : Z) (x : A) :
  store l i x = Ok l' → 0 ≤ i < len l ∧ l' = <[Z.to_nat i := x]> l.
Proof.
  unfold store. destruct (Z.leb_spec 0 i), (Z.ltb_spec i (len l)); simpl;
    intros; simplify_eq; auto with lia.
Qed.

Lemma make_Ok_inv {A} (z : A) (n : Z) (l : list A) :
  make z n = Ok l → 0 ≤ n ∧ l = replicate (Z.to_nat n) z.
Proof.
  unfold make. destruct (Z.ltb_spec n 0); intros; simplify_eq; auto with lia.
Qed.

(** The colours stay one blank entry per node through the whole file. *)
Lemma load_lines_colors :
  ∀ lines g g',
    Colors g = replicate (length (AdjecencyList g)) 0 →
    load_lines lines g = Ok (inl g') →
    Colors g' = replicate (length (AdjecencyList g')) 0.
Proof.
  induction lines as [|line rest IH]; intros g g' Hg Hrun.
  - simpl in Hrun. by simplify_eq.
  - destruct line as [|c s]; [by apply (IH g)|].
    rewrite load_lines_cons in Hrun.
    destruct (decide (c = "c"%char)); [by apply (IH g)|].
    destruct (decide (c = "p"%char)).
    { destruct (index _ 2) as [tok| |]; simpl in Hrun; try done.
      destruct (ParseInt tok) as [nodes|]; [|done].
      destruct (make [] nodes) as [adj| |] eqn:Hadj; simpl in Hrun; try done.
      destruct (make 0 nodes) as [colors| |] eqn:Hcolors; simpl in Hrun; try done.
      apply make_Ok_inv in Hadj as [_ ->], Hcolors as [_ ->].
      eapply IH; [|exact Hrun]. cbn [Colors AdjecencyList]. by rewrite length_replicate. }
    destruct (decide (c = "e"%char)); [|by apply (IH g)].
    destruct (index _ 1) as [tok1| |]; simpl in Hrun; try done.
    destruct (ParseInt tok1) as [first|]; [|done].
    destruct (index _ 2) as [tok2| |]; simpl in Hrun; try done.
    destruct (ParseInt tok2) as [second|]; [|done].
    destruct (index (AdjecencyList g) _) as [row| |]; simpl in Hrun; try done.
    destruct (store _ _ _) as [adj| |] eqn:Hadj; simpl in Hrun; try done.
    apply store_Ok_inv in Hadj as [_ ->].
    eapply IH; [|exact Hrun]. cbn [Colors AdjecencyList]. by rewrite length_insert.
Qed.

(** X17: every graph that [LoadGraph] returns has exactly one colour entry
    per node, all of them 0, whatever the file contains. *)
Theorem LoadGraph_blank_colors (file : string + error) (g : Graph) :
  LoadGraph file = Ok (inl g) →
  len (Colors g) = NodeCount g ∧
  Colors g = replicate (Z.to_nat (NodeCount g)) 0.
Proof.
  destruct file as [bytes|err]; [|done]. unfold LoadGraph. intros Hrun.
  apply load_lines_colors in Hrun; [|done].
  unfold NodeCount, len. rewrite Nat2Z.id. split; [|done].
  by rewrite Hrun, length_replicate.
Qed.

Lemma LoadGraph_blank_colors_witness :
  LoadGraph (inl ("p edge 3 2" +:+ nl +:+ "e 1 2" +:+ nl +:+ "e 2 3" +:+ nl))
    = Ok (inl (mkGraph [[1]; [2]; []] [0; 0; 0])) ∧
  len [0; 0; 0] = NodeCount (mkGraph [[1]; [2]; []] [0; 0; 0]).
Proof.
  assert (Hrun : LoadGraph (inl ("p edge 3 2" +:+ nl +:+ "e 1 2" +:+ nl +:+ "e 2 3" +:+ nl))
                 = Ok (inl (mkGraph [[1]; [2]; []] [0; 0; 0]))) by reflexivity.
  split; [exact Hrun|].
  exact (proj1 (LoadGraph_blank_colors _ _ Hrun)).
Defined.

(** Lines that start with neither [p] nor [e] have no effect. *)
Lemma load_lines_significant :
  ∀ lines g, load_lines (filter significant lines) g = load_lines lines g.
Proof.
  induction lines as [|line rest IH]; intros g; [done|].
  destruct line as [|c s].
  { rewrite filter_cons_False by (by intros [?|?]). apply IH. }
  rewrite (load_lines_cons c s rest).
  destruct (decide (c = "c"%char)) as [->|Hc].
  { rewrite filter_cons_False by (by intros [?|?]). apply IH. }
  destruct (decide (c = "p"%char)) as [->|Hp].
  { rewrite filter_cons_True by (by left). rewrite load_lines_cons.
    rewrite decide_False by done. rewrite decide_True by done.
    destruct (index _ 2) as [tok| |]; simpl; try done.
    destruct (ParseInt tok) as [nodes|]; [|done].
    destruct (make [] nodes) as [adj| |]; simpl; try done.
    destruct (make 0 nodes) as [colors| |]; simpl; try done. }
  destruct (decide (c = "e"%char)) as [->|He].
  { rewrite filter_cons_True by (by right). rewrite load_lines_cons.
    rewrite decide_False by done. rewrite decide_False by done.
    rewrite decide_True by done.
    destruct (index _ 1) as [tok1| |]; simpl; try done.
    destruct (ParseInt tok1) as [first|]; [|done].
    destruct (index _ 2) as [tok2| |]; simpl; try done.
    destruct (ParseInt tok2) as [second|]; [|done].
    destruct (index (AdjecencyList g) _) as [row| |]; simpl; try done.
    destruct (store _ _ _) as [adj| |]; simpl; try done. }
  rewrite filter_cons_False; [apply IH|].
  intros [Hsig|Hsig]; simpl in Hsig; congruence.
Qed.

(** X18: the outcome of [LoadGraph] depends only on the lines that start
    with [p] or [e], in their order: comment lines, empty lines and lines
    with any other first byte are skipped, wherever they stand. *)
Theorem LoadGraph_skips_other_lines (bytes1 bytes2 : string) :
  filter significant (Split bytes1 newline)
    = filter significant (Split bytes2 newline) →
  LoadGraph (inl bytes1) = LoadGraph (inl bytes2).
Proof.
  intros Hsame. unfold LoadGraph.
  rewrite <- (load_lines_significant (Split bytes1 newline)).
  rewrite <- (load_lines_significant (Split bytes2 newline)).
  by rewrite Hsame.
Qed.

Lemma LoadGraph_skips_other_lines_witness :
  filter significant
    (Split ("c a triangle" +:+ nl +:+ "p edge 3 1" +:+ nl +:+ nl +:+ "x" +:+ nl
              +:+ "e 1 2") newline)
    = filter significant (Split ("p edge 3 1" +:+ nl +:+ "e 1 2") newline) ∧
  LoadGraph (inl ("c a triangle" +:+ nl +:+ "p edge 3 1" +:+ nl +:+ nl +:+ "x" +:+ nl
                    +:+ "e 1 2"))
    = LoadGraph (inl ("p edge 3 1" +:+ nl +:+ "e 1 2")).
Proof.
  assert (Hsame : filter significant
            (Split ("c a triangle" +:+ nl +:+ "p edge 3 1" +:+ nl +:+ nl +:+ "x" +:+ nl
                      +:+ "e 1 2") newline)
          = filter significant (Split ("p edge 3 1" +:+ nl +:+ "e 1 2") newline))
    by reflexivity.
  split; [exact Hsame|].
  exact (LoadGraph_skips_other_lines _ _ Hsame).
Defined.

Lemma pairs_from_replicate_nil (k : Z) (n : nat) :
  pairs_from k (replicate n []) = [].
Proof. revert k. induction n as [|n IH]; intros k; simpl; [done|apply IH]. Qed.

(** Appending [x] to row [i] adds the one pair [(k + i, x)]. *)
Lemma pairs_from_insert_snoc (rows : list (list Z)) :
  ∀ (i : nat) (k : Z) row x,
    rows !! i = Some row →
    pairs_from k (<[i := row ++ [x]]> rows)
    ≡ₚ (k + Z.of_nat i, x) :: pairs_from k rows.
Proof.
  induction rows as [|r rs IH]; intros i k row x Hrow; [done|].
  destruct i as [|i]; simpl in Hrow.
  - simplify_eq. cbn [insert list_insert pairs_from].
    rewrite fmap_app, <- app_assoc. simpl.
    rewrite Z.add_0_r. by rewrite <- Permutation_middle.
  - cbn [insert list_insert pairs_from]. rewrite (IH i (k + 1) row x Hrow).
    rewrite <- Permutation_middle.
    by replace (k + 1 + Z.of_nat i) with (k + Z.of_nat (S i)) by lia.
Qed.

(** Without a problem line, each edge line [e a b] adds the pair
    [(a-1, b-1)] to the graph and nothing else changes. *)
Lemma load_lines_edges :
  ∀ lines g g',
    Forall (λ line, first_byte line ≠ Some "p"%char) lines →
    load_lines lines g = Ok (inl g') →
    length (AdjecencyList g') = length (AdjecencyList g) ∧
    Colors g' = Colors g ∧
    adjacency_pairs g' ≡ₚ adjacency_pairs g ++ omap edge_of_line lines ∧
    Forall (λ line, first_byte line = Some "e"%char → is_Some (edge_of_line line))
           lines.
Proof.
  induction lines as [|line rest IH]; intros g g' Hnop Hrun.
  - simpl in Hrun. simplify_eq. simpl. by rewrite app_nil_r.
  - apply Forall_cons in Hnop as [Hline Hnop].
    assert (Hskip : edge_of_line line = None →
                    load_lines rest g = Ok (inl g') →
                    length (AdjecencyList g') = length (AdjecencyList g) ∧
                    Colors g' = Colors g ∧
                    adjacency_pairs g' ≡ₚ adjacency_pairs g ++ omap edge_of_line (line :: rest) ∧
                    Forall (λ line, first_byte line = Some "e"%char →
                                    is_Some (edge_of_line line)) rest).
    { intros Hnone Hrest. destruct (IH g g' Hnop Hrest) as (? & ? & ? & ?).
      cbn [omap list_omap]. rewrite Hnone. done. }
    destruct line as [|c s].
    { destruct (Hskip eq_refl Hrun) as (? & ? & ? & ?).
      repeat (split; [done|]). constructor; [done|done]. }
    rewrite load_lines_cons in Hrun.
    assert (Hother : c ≠ "e"%char → edge_of_line (String c s) = None).
    { intros Hne. unfold edge_of_line. rewrite decide_False; [done|].
      simpl. congruence. }
    destruct (decide (c = "c"%char)) as [->|Hc].
    { destruct (Hskip (Hother ltac:(done)) Hrun) as (? & ? & ? & ?).
      repeat (split; [done|]). constructor; [done|done]. }
    destruct (decide (c = "p"%char)) as [->|Hp]; [by destruct Hline|].
    destruct (decide (c = "e"%char)) as [->|He]; cycle 1.
    { destruct (Hskip (Hother He) Hrun) as (? & ? & ? & ?).
      repeat (split; [done|]). constructor; [|done]. simpl. congruence. }
    clear Hskip Hother.
    remember (Split (String "e" s) " "%char) as tokens eqn:Htokens.
    destruct (index _ 1) as [tok1| |] eqn:Htok1; simpl in Hrun; try done.
    destruct (ParseInt tok1) as [first|] eqn:Hfirst; [|done].
    destruct (index _ 2) as [tok2| |] eqn:Htok2; simpl in Hrun; try done.
    destruct (ParseInt tok2) as [second|] eqn:Hsecond; [|done].
    destruct (index (AdjecencyList g) _) as [row| |] eqn:Hrow; simpl in Hrun; try done.
    destruct (store _ _ _) as [adj| |] eqn:Hadj; simpl in Hrun; try done.
    apply store_Ok_inv in Hadj as [_ ->].
    apply index_Ok, lookupZ_Some in Htok1 as [_ Htok1], Htok2 as [_ Htok2],
      Hrow as [Hlow Hrow].
    change (Z.to_nat 1) with 1%nat in Htok1. change (Z.to_nat 2) with 2%nat in Htok2.
    assert (Hedge : edge_of_line (String "e" s) = Some (first - 1, second - 1)).
    { unfold edge_of_line. rewrite decide_True by done. cbn zeta.
      by rewrite <- Htokens, Htok1, Htok2, Hfirst, Hsecond. }
    destruct (IH _ g' Hnop Hrun) as (Hlen & Hcolors & Hpairs & Hall).
    cbn [AdjecencyList Colors] in Hlen, Hcolors. rewrite length_insert in Hlen.
    split; [done|]. split; [done|]. split.
    + cbn [omap list_omap]. rewrite Hedge, Hpairs.
      unfold adjacency_pairs at 1. cbn [AdjecencyList].
      rewrite (pairs_from_insert_snoc _ _ 0 _ _ Hrow).
      rewrite Z.add_0_l, Z2Nat.id by lia.
      by rewrite <- Permutation_middle.
    + constructor; [|done]. intros _. by rewrite Hedge.
Qed.

Lemma length_omap_all {A B} (f : A → option B) (l : list A) :
  Forall (λ x, is_Some (f x)) l → length (omap f l) = length l.
Proof.
  induction 1 as [|x l [y Hy] _ IH]; [done|].
  cbn [omap list_omap]. rewrite Hy. simpl. by rewrite IH.
Qed.

(** X19: when the significant lines of a file are one problem line followed
    by edge lines and [LoadGraph] returns a graph, the node count is the
    number in the third token of the problem line, and the stored adjacency
    pairs are exactly the pairs [(a-1, b-1)] of the edge lines [e a b], one
    per line: each edge is stored once, at its first end only, and the
    second end is stored unchecked. *)
Theorem LoadGraph_one_pair_per_edge_line (bytes : string) (problem : string)
    (edges : list string) (g : Graph) :
  filter significant (Split bytes newline) = problem :: edges →
  first_byte problem = Some "p"%char →
  Forall (λ line, first_byte line = Some "e"%char) edges →
  LoadGraph (inl bytes) = Ok (inl g) →
  (∃ tok, Split problem " "%char !! 2%nat = Some tok ∧
          ParseInt tok = inl (NodeCount g)) ∧
  adjacency_pairs g ≡ₚ omap edge_of_line edges ∧
  length (adjacency_pairs g) = length edges.
Proof.
  intros Hlines Hp Hedges. unfold LoadGraph.
  rewrite <- load_lines_significant, Hlines. intros Hrun.
  destruct problem as [|c s]; [done|]. simpl in Hp. injection Hp as ->.
  rewrite load_lines_cons in Hrun.
  rewrite decide_False, decide_True in Hrun by done.
  destruct (index _ 2) as [tok| |] eqn:Htok; simpl in Hrun; try done.
  destruct (ParseInt tok) as [nodes|] eqn:Hnodes; [|done].
  destruct (make [] nodes) as [adj| |] eqn:Hadj; simpl in Hrun; try done.
  destruct (make 0 nodes) as [colors| |] eqn:Hcolors; simpl in Hrun; try done.
  apply make_Ok_inv in Hadj as [Hnn ->], Hcolors as [_ ->].
  apply index_Ok, lookupZ_Some in Htok as [_ Htok].
  change (Z.to_nat 2) with 2%nat in Htok.
  apply load_lines_edges in Hrun as (Hlen & _ & Hpairs & Hall).
  - cbn [AdjecencyList] in Hlen. rewrite length_replicate in Hlen.
    unfold adjacency_pairs at 2 in Hpairs. cbn [AdjecencyList] in Hpairs.
    rewrite pairs_from_replicate_nil, app_nil_l in Hpairs.
    split; [|split; [done|]].
    + exists tok. split; [done|]. rewrite Hnodes. f_equal.
      unfold NodeCount, len. lia.
    + rewrite Hpairs. apply length_omap_all.
      rewrite Forall_forall in Hall, Hedges. apply Forall_forall.
      intros line Hline. by apply Hall, Hedges.
  - eapply Forall_impl; [exact Hedges|]. intros line Hline. simpl in *. congruence.
Qed.

Lemma LoadGraph_one_pair_per_edge_line_witness :
  filter significant
    (Split ("c x" +:+ nl +:+ "p edge 3 2" +:+ nl +:+ "e 1 2" +:+ nl +:+ "e 2 3" +:+ nl)
           newline)
    = "p edge 3 2" :: ["e 1 2"; "e 2 3"] ∧
  LoadGraph (inl ("c x" +:+ nl +:+ "p edge 3 2" +:+ nl +:+ "e 1 2" +:+ nl +:+ "e 2 3" +:+ nl))
    = Ok (inl (mkGraph [[1]; [2]; []] [0; 0; 0])) ∧
  length (adjacency_pairs (mkGraph [[1]; [2]; []] [0; 0; 0])) = length ["e 1 2"; "e 2 3"].
Proof.
  assert (H1 : filter significant
            (Split ("c x" +:+ nl +:+ "p edge 3 2" +:+ nl +:+ "e 1 2" +:+ nl
                      +:+ "e 2 3" +:+ nl) newline)
          = "p edge 3 2" :: ["e 1 2"; "e 2 3"]) by reflexivity.
  assert (H2 : first_byte "p edge 3 2" = Some "p"%char) by reflexivity.
  assert (H3 : Forall (λ line, first_byte line = Some "e"%char) ["e 1 2"; "e 2 3"]).
  { repeat constructor. }
  assert (H4 : LoadGraph (inl ("c x" +:+ nl +:+ "p edge 3 2" +:+ nl +:+ "e 1 2" +:+ nl
                                 +:+ "e 2 3" +:+ nl))
               = Ok (inl (mkGraph [[1]; [2]; []] [0; 0; 0]))) by reflexivity.
  split; [exact H1|]. split; [exact H4|].
  exact (proj2 (proj2 (LoadGraph_one_pair_per_edge_line _ _ _ _ H1 H2 H3 H4))).
Defined.

(** X20: when the first significant line of a file is an edge line, no
    graph has been allocated yet and [LoadGraph] never returns a graph: it
    panics, or returns the parse error of that line. *)
Theorem LoadGraph_edge_before_problem (bytes : string) (edge : string)
    (rest : list string) :
  filter significant (Split bytes newline) = edge :: rest →
  first_byte edge = Some "e"%char →
  LoadGraph (inl bytes) = Panic ∨ ∃ err, LoadGraph (inl bytes) = Ok (inr err).
Proof.
  intros Hlines He. unfold LoadGraph.
  rewrite <- load_lines_significant, Hlines.
  destruct edge as [|c s]; [done|]. simpl in He. injection He as ->.
  rewrite load_lines_cons.
  rewrite decide_False, decide_False, decide_True by done.
  remember (Split (String "e" s) " "%char) as tokens eqn:Htokens.
  destruct (index_cases tokens 1) as [->|[tok1 ->]]; [left; reflexivity|].
  cbn [mbind result_bind].
  destruct (ParseInt tok1) as [first|err]; [|right; by exists err].
  destruct (index_cases tokens 2) as [->|[tok2 ->]]; [left; reflexivity|].
  cbn [mbind result_bind].
  destruct (ParseInt tok2) as [second|err]; [|right; by exists err].
  left. unfold index, lookupZ. cbn [AdjecencyList].
  by destruct (first - 1 <? 0).
Qed.

Lemma LoadGraph_edge_before_problem_witness :
  filter significant (Split ("c x" +:+ nl +:+ "e 1 2" +:+ nl +:+ "p edge 3 1") newline)
    = "e 1 2" :: ["p edge 3 1"] ∧
  LoadGraph (inl ("c x" +:+ nl +:+ "e 1 2" +:+ nl +:+ "p edge 3 1")) = Panic.
Proof.
  assert (H1 : filter significant
                 (Split ("c x" +:+ nl +:+ "e 1 2" +:+ nl +:+ "p edge 3 1") newline)
               = "e 1 2" :: ["p edge 3 1"]) by reflexivity.
  assert (H2 : first_byte "e 1 2" = Some "e"%char) by reflexivity.
  split; [exact H1|].
  destruct (LoadGraph_edge_before_problem _ _ _ H1 H2) as [Hpanic|[err Herr]].
  - exact Hpanic.
  - discriminate Herr.
Defined.

(** ** Visualization output, continued *)

Lemma write_seq_app fs file (l1 l2 : list string) :
  write_seq fs file (l1 ++ l2) =
  let '(err, file') := write_seq fs file l1 in
  match err with
  | Some _ => (err, file')
  | None => write_seq fs file' l2
  end.
Proof.
  revert file. induction l1 as [|s l1 IH]; intros file; [done|].
  cbn [app write_seq]. destruct (WriteString fs file s) as [[e|] file1]; [done|].
  apply IH.
Qed.

Lemma write_edges_seq fs i adj file :
  write_edges fs i adj file
  = write_seq fs file (edge_statement <$> ((λ j, (i, j)) <$> adj)).
Proof.
  revert file. induction adj as [|j rest IH]; intros file; [done|].
  cbn [write_edges fmap list_fmap write_seq].
  change (tab +:+ pretty i +:+ " -- " +:+ pretty j +:+ nl) with (edge_statement (i, j)).
  destruct (WriteString fs file (edge_statement (i, j))) as [[e|] file1]; [done|].
  apply IH.
Qed.

Lemma write_rows_seq fs i rows file :
  write_rows fs i rows file = write_seq fs file (edge_statement <$> pairs_from i rows).
Proof.
  revert i file. induction rows as [|adj rest IH]; intros i file; [done|].
  cbn [write_rows pairs_from]. rewrite fmap_app, write_seq_app, write_edges_seq.
  destruct (write_seq fs file _) as [[e|] file1]; [done|]. apply IH.
Qed.

(** When none of the writes fails, all statements reach the file. *)
Lemma write_seq_ok fs (stmts : list string) :
  ∀ file,
    (∀ k, (k < length stmts)%nat → write_error fs (attempts file + k) = None) →
    write_seq fs file stmts
    = (None, mkFile (attempts file + length stmts) (content file ++ stmts)).
Proof.
  induction stmts as [|s rest IH]; intros file Hok.
  - simpl. rewrite Nat.add_0_r, app_nil_r. by destruct file.
  - cbn [write_seq]. unfold WriteString.
    rewrite <- (Nat.add_0_r (attempts file)) at 1. rewrite (Hok 0%nat) by (simpl; lia).
    rewrite IH; cbn [attempts content].
    + rewrite <- app_assoc. simpl. do 2 f_equal. lia.
    + intros k Hk. replace (S (attempts file) + k)%nat with (attempts file + S k)%nat by lia.
      apply Hok. simpl. lia.
Qed.

(** The first failing write ends the sequence: its error is the result and
    only the statements before it reach the file. *)
Lemma write_seq_fail fs (stmts : list string) (e : error) :
  ∀ k file,
    (k < length stmts)%nat →
    (∀ m, (m < k)%nat → write_error fs (attempts file + m) = None) →
    write_error fs (attempts file + k) = Some e →
    write_seq fs file stmts
    = (Some e, mkFile (attempts file + S k) (content file ++ take k stmts)).
Proof.
  induction stmts as [|s rest IH]; intros k file Hk Hbefore Hfail; [simpl in Hk; lia|].
  cbn [write_seq]. unfold WriteString. destruct k as [|k].
  - rewrite Nat.add_0_r in Hfail. rewrite Hfail. simpl.
    rewrite app_nil_r. do 2 f_equal. lia.
  - rewrite <- (Nat.add_0_r (attempts file)) at 1. rewrite (Hbefore 0%nat) by lia.
    rewrite (IH k); cbn [attempts content].
    + rewrite <- app_assoc. simpl. do 2 f_equal. lia.
    + simpl in Hk. lia.
    + intros m Hm. replace (S (attempts file) + m)%nat with (attempts file + S m)%nat by lia.
      apply Hbefore. lia.
    + by replace (S (attempts file) + k)%nat with (attempts file + S k)%nat by lia.
Qed.

(** The style loop makes one write per node, whether it succeeds or not. *)
Lemma write_styles_run fs (colors : list Z) :
  ∀ count i file, (i + count ≤ length colors)%nat →
    ∃ file',
      write_styles fs count (Z.of_nat i) colors file = Ok file' ∧
      attempts file' = (attempts file + count)%nat ∧
      ((∀ k, (k < count)%nat → write_error fs (attempts file + k) = None) →
       content file'
       = content file
           ++ ((λ k, style_statement (Z.of_nat k) (default 0 (colors !! k)))
                 <$> seq i count)).
Proof.
  induction count as [|count IH]; intros i file Hlen.
  - exists file. simpl. split; [done|]. split; [lia|]. intros _. by rewrite app_nil_r.
  - cbn [write_styles].
    destruct (lookup_lt_is_Some_2 colors i) as [color Hcolor]; [lia|].
    rewrite (index_of_nat _ _ _ Hcolor). cbn [mbind result_bind].
    change (tab +:+ pretty (Z.of_nat i) +:+ " [style=filled, color="
                +:+ pretty (color + 1) +:+ "]" +:+ nl)
      with (style_statement (Z.of_nat i) color).
    replace (Z.of_nat i + 1) with (Z.of_nat (S i)) by lia.
    destruct (WriteString fs file (style_statement (Z.of_nat i) color))
      as [err file1] eqn:Hwrite.
    destruct (IH (S i) file1) as (file' & Hrun & Hattempts & Hcontent); [lia|].
    assert (Hfile1 : attempts file1 = S (attempts file)).
    { unfold WriteString in Hwrite.
      destruct (write_error fs (attempts file)); by simplify_eq. }
    exists file'. split; [done|]. split; [lia|].
    intros Hok. rewrite Hcontent.
    + unfold WriteString in Hwrite.
      rewrite <- (Nat.add_0_r (attempts file)) in Hwrite at 1.
      rewrite (Hok 0%nat) in Hwrite by lia. simplify_eq. cbn [content].
      rewrite <- app_assoc. cbn [seq fmap list_fmap app]. by rewrite Hcolor.
    + intros k Hk. rewrite Hfile1.
      replace (S (attempts file) + k)%nat with (attempts file + S k)%nat by lia.
      apply Hok. lia.
Qed.

Lemma write_styles_short fs (colors : list Z) :
  ∀ count i file, (i ≤ length colors < i + count)%nat →
    write_styles fs count (Z.of_nat i) colors file = Panic.
Proof.
  induction count as [|count IH]; intros i file Hlen; [lia|].
  cbn [write_styles]. destruct (decide (i < length colors)%nat) as [Hlt|Hge].
  - destruct (lookup_lt_is_Some_2 colors i Hlt) as [color Hcolor].
    rewrite (index_of_nat _ _ _ Hcolor). cbn [mbind result_bind].
    destruct (WriteString fs file _) as [err file1].
    replace (Z.of_nat i + 1) with (Z.of_nat (S i)) by lia. apply IH. lia.
  - unfold index. rewrite lookupZ_of_nat, lookup_ge_None_2 by lia. done.
Qed.

(** [SaveGraphViz] after a successful open: the header and the edge
    statements are written until one fails, then the styles, then the
    footer. *)
Lemma SaveGraphViz_opened fs (g : Graph) :
  open_error fs = None →
  SaveGraphViz fs g =
  let '(err, file) :=
    write_seq fs (mkFile 0 [])
      (graphviz_header :: (edge_statement <$> adjacency_pairs g)) in
  match err with
  | Some _ => Ok (err, content file)
  | None =>
      file ← write_styles fs (Z.to_nat (NodeCount g)) 0 (Colors g) file;
      let '(err, file) := WriteString fs file graphviz_footer in
      Ok (err, content file)
  end.
Proof.
  intros Hopen. unfold SaveGraphViz. rewrite Hopen. cbn [write_seq].
  change ("graph {" +:+ nl +:+ tab +:+ "node [colorscheme=accent8]" +:+ nl)
    with graphviz_header.
  destruct (WriteString fs (mkFile 0 []) graphviz_header) as [[e|] file1]; [done|].
  cbn zeta. by rewrite write_rows_seq.
Qed.



(** X22: when the file opens and the header and edge statements are
    written, a graph with fewer colours than nodes makes [SaveGraphViz]
    panic on [g.Colors[i]] instead of returning an error. *)
Theorem SaveGraphViz_short_colors (fs : FileSystem) (g : Graph) :
  open_error fs = None →
  (∀ k, (k ≤ length (adjacency_pairs g))%nat → write_error fs k = None) →
  len (Colors g) < NodeCount g →
  SaveGraphViz fs g = Panic.
Proof.
  intros Hopen Hok Hcolors. rewrite (SaveGraphViz_opened fs g Hopen).
  rewrite write_seq_ok; cycle 1.
  { intros k Hk. apply Hok. simpl in Hk. rewrite length_fmap in Hk. simpl. lia. }
  change 0 with (Z.of_nat 0) at 1.
  rewrite write_styles_short; [done|]. unfold len in Hcolors. lia.
Qed.

Lemma SaveGraphViz_short_colors_witness :
  open_error working_fs = None ∧
  (∀ k, (k ≤ length (adjacency_pairs short_colors))%nat →
        write_error working_fs k = None) ∧
  len (Colors short_colors) < NodeCount short_colors ∧
  SaveGraphViz working_fs short_colors = Panic.
Proof.
  assert (H1 : open_error working_fs = None) by reflexivity.
  assert (H2 : ∀ k, (k ≤ length (adjacency_pairs short_colors))%nat →
                    write_error working_fs k = None) by reflexivity.
  assert (H3 : len (Colors short_colors) < NodeCount short_colors)
    by reflexivity.
  repeat (split; [assumption|]).
  exact (SaveGraphViz_short_colors working_fs _ H1 H2 H3).
Defined.

(** X23: when the file opens and the header and edge statements are
    written, the error that [SaveGraphViz] returns is that of the closing
    write alone: failures of the node-style writes in between are
    overwritten and never reported. *)
Theorem SaveGraphViz_reports_last_write (fs : FileSystem) (g : Graph) :
  open_error fs = None →
  (∀ k, (k ≤ length (adjacency_pairs g))%nat → write_error fs k = None) →
  NodeCount g ≤ len (Colors g) →
  ∃ out,
    SaveGraphViz fs g
    = Ok (write_error fs (S (length (adjacency_pairs g)) + Z.to_nat (NodeCount g)),
          out).
Proof.
  intros Hopen Hok Hcolors. rewrite (SaveGraphViz_opened fs g Hopen).
  rewrite write_seq_ok; cycle 1.
  { intros k Hk. apply Hok. simpl in Hk. rewrite length_fmap in Hk. simpl. lia. }
  cbn [attempts content app length]. rewrite length_fmap.
  destruct (write_styles_run fs (Colors g) (Z.to_nat (NodeCount g)) 0
              (mkFile (0 + S (length (adjacency_pairs g)))
                 (graphviz_header :: (edge_statement <$> adjacency_pairs g))))
    as (file' & Hrun & Hattempts & _).
  { unfold len in Hcolors. lia. }
  change (Z.of_nat 0) with 0 in Hrun. rewrite Hrun. cbn [mbind result_bind].
  unfold WriteString. rewrite Hattempts. cbn [attempts].
  destruct (write_error fs _) as [e|]; eexists; reflexivity.
Qed.

Lemma SaveGraphViz_reports_last_write_witness :
  open_error (mkFS None (λ k, if (k =? 4)%nat then Some PathError else None)) = None ∧
  NodeCount triangle ≤ len (Colors triangle) ∧
  ∃ out, SaveGraphViz (mkFS None (λ k, if (k =? 4)%nat then Some PathError else None))
           triangle = Ok (None, out).
Proof.
  set (fs := mkFS None (λ k, if (k =? 4)%nat then Some PathError else None)).
  assert (H1 : open_error fs = None) by reflexivity.
  assert (H2 : ∀ k, (k ≤ length (adjacency_pairs triangle))%nat → write_error fs k = None).
  { intros k Hk. change (length (adjacency_pairs triangle)) with 3%nat in Hk.
    simpl. destruct (Nat.eqb_spec k 4); [lia|done]. }
  assert (H3 : NodeCount triangle ≤ len (Colors triangle)) by (vm_compute; discriminate).
  split; [exact H1|]. split; [exact H3|].
  destruct (SaveGraphViz_reports_last_write fs triangle H1 H2 H3) as [out Hrun].
  exists out. exact Hrun.
Defined.

(** X24: when the file opens and write number [k] is the first to fail
    among the header and the edge statements, [SaveGraphViz] returns that
    error at once; the file holds only the [k] statements written before,
    with neither node styles nor footer. *)
Theorem SaveGraphViz_first_failure (fs : FileSystem) (g : Graph) (k : nat)
    (e : error) :
  open_error fs = None →
  (k ≤ length (adjacency_pairs g))%nat →
  (∀ m, (m < k)%nat → write_error fs m = None) →
  write_error fs k = Some e →
  SaveGraphViz fs g
  = Ok (Some e, take k (graphviz_header :: (edge_statement <$> adjacency_pairs g))).
Proof.
  intros Hopen Hk Hbefore Hfail. rewrite (SaveGraphViz_opened fs g Hopen).
  rewrite (write_seq_fail fs _ e k); try done.
  simpl. rewrite length_fmap. lia.
Qed.

Lemma SaveGraphViz_first_failure_witness :
  open_error (mkFS None (λ k, if (k =? 2)%nat then Some PathError else None)) = None ∧
  (2 ≤ length (adjacency_pairs triangle))%nat ∧
  SaveGraphViz (mkFS None (λ k, if (k =? 2)%nat then Some PathError else None)) triangle
    = Ok (Some PathError, [graphviz_header; edge_statement (0, 1)]).
Proof.
  set (fs := mkFS None (λ k, if (k =? 2)%nat then Some PathError else None)).
  assert (H1 : open_error fs = None) by reflexivity.
  assert (H2 : (2 ≤ length (adjacency_pairs triangle))%nat) by (vm_compute; lia).
  assert (H3 : ∀ m, (m < 2)%nat → write_error fs m = None).
  { intros m Hm. simpl. destruct (Nat.eqb_spec m 2); [lia|done]. }
  assert (H4 : write_error fs 2 = Some PathError) by reflexivity.
  split; [exact H1|]. split; [exact H2|].
  exact (SaveGraphViz_first_failure fs triangle 2 PathError H1 H2 H3 H4).
Defined.
